(** * A shallow embedding of the JavaScript study snippets

    The repository holds unrelated browser scripts and Markdown notes.
    Each script is translated into Rocq definitions over a small model
    of JavaScript values and of the realm a script runs in:

    - [Core js Fumdamental/script.js]: the hand-written [mybind];
    - [AsyncPromisse/asyncPromise.js], lines 1-93: one promise settled
      from a timer; lines 93-170: the [this]-keyword snippet with
      [class Client];
    - the array-method snippet ([flat], [find], [findIndex], ...);
    - [Date/script.js]: relative time formatting.

    The scripts are classic (non-strict) scripts and run in a browser
    realm, where the top-level [this] is [window].  Numbers are the
    integers plus [NaN]: every numeric literal of the sources is an
    integer, and [NaN] is what a failed string conversion yields; an
    integer stands for the number of the script as long as it is a safe
    integer (below 2^53 in size), where the script's numbers are exact.
    Strings are byte strings.  Object literals, arrays and errors are
    values; only the instances of [class Client], whose field is
    reassigned, live in a heap. *)

From Stdlib Require Import ZArith Ascii String.
From stdpp Require Import gmap strings list fin_maps.

#[local] Set Warnings "-register-all".
Local Open Scope string_scope.
Local Open Scope list_scope.
Local Open Scope Z_scope.

(** ** Values *)

(** A number of the scripts: [NaN], or an integer.  An integer stands
    for the script's number exactly while it is a safe integer. *)
Inductive number : Type :=
| NaN
| Fin (z : Z).

(** [fn] lists the function objects the scripts create or receive.
    [FUser id] stands for an arbitrary function written elsewhere; its
    body is supplied by the environment (see [Section Calls]).
    [FDecl name] is the function a script declares under that name
    ([printName], [greet], [Person], [objItself], [innerFunction]). *)
Inductive value : Type :=
| VUndef
| VNull
| VBool (b : bool)
| VNum (n : number)
| VStr (s : string)
| VArr (xs : list value)
| VObj (props : list (string * value))
| VErr (msg : string)
| VGlobal
| VFun (f : fn)
with fn : Type :=
| FUser (id : nat)
| FDecl (name : string)
| FMybind
| FMybound (obj : value) (args : list value)
| FNativeBound (target : fn) (boundThis : value) (boundArgs : list value).

Definition num (z : Z) : value := VNum (Fin z).

(** ** Coercions *)

(** [typeof v] *)
Definition typeof (v : value) : string :=
  match v with
  | VUndef => "undefined"
  | VNull => "object"
  | VBool _ => "boolean"
  | VNum _ => "number"
  | VStr _ => "string"
  | VArr _ | VObj _ | VErr _ | VGlobal => "object"
  | VFun _ => "function"
  end.

(** ToBoolean *)
Definition to_boolean (v : value) : bool :=
  match v with
  | VUndef | VNull => false
  | VBool b => b
  | VNum NaN => false
  | VNum (Fin z) => negb (z =? 0)
  | VStr s => negb (String.eqb s EmptyString)
  | _ => true
  end.

Definition digit_of (c : ascii) : option Z :=
  let n := Z.of_nat (nat_of_ascii c) in
  if (48 <=? n) && (n <=? 57) then Some (n - 48) else None.

Fixpoint digits_value (acc : Z) (s : string) : option Z :=
  match s with
  | EmptyString => Some acc
  | String c r =>
      match digit_of c with
      | Some d => digits_value (10 * acc + d) r
      | None => None
      end
  end.

(** StringToNumber on the integer fragment: an optional sign followed by
    decimal digits; the empty string is 0; anything else is [NaN]. *)
Definition string_to_number (s : string) : number :=
  match s with
  | EmptyString => Fin 0
  | String "-" (String c r) =>
      match digits_value 0 (String c r) with Some z => Fin (- z) | None => NaN end
  | String "+" (String c r) =>
      match digits_value 0 (String c r) with Some z => Fin z | None => NaN end
  | _ => match digits_value 0 s with Some z => Fin z | None => NaN end
  end.

Fixpoint digits_of_pos (fuel : nat) (n : Z) (acc : string) : string :=
  match fuel with
  | O => acc
  | S fuel' =>
      let acc' := String (ascii_of_nat (Z.to_nat (48 + n mod 10))) acc in
      if n <? 10 then acc' else digits_of_pos fuel' (n / 10) acc'
  end.

(** Number::toString for integers: the decimal digits, as the scripts
    print every integer below 10^21 in size. *)
Definition number_to_string (n : number) : string :=
  match n with
  | NaN => "NaN"
  | Fin z =>
      if z <? 0
      then String "-" (digits_of_pos (S (Z.to_nat (Z.log2 (- z)))) (- z) EmptyString)
      else digits_of_pos (S (Z.to_nat (Z.log2 z))) z EmptyString
  end.

Fixpoint join_with (sep : string) (parts : list string) : string :=
  match parts with
  | [] => EmptyString
  | [p] => p
  | p :: rest => p +:+ sep +:+ join_with sep rest
  end.

(** ToString.  An array prints as its elements joined by commas, where
    [undefined] and [null] elements print as the empty string; an error
    without a message prints as its name.  A function prints as its
    source text, which is abbreviated here.  An object literal is taken
    to have no [toString] or [valueOf] of its own. *)
Fixpoint to_string (v : value) : string :=
  match v with
  | VUndef => "undefined"
  | VNull => "null"
  | VBool true => "true"
  | VBool false => "false"
  | VNum n => number_to_string n
  | VStr s => s
  | VArr xs =>
      join_with ","
        (map (fun x => match x with
                       | VUndef | VNull => EmptyString
                       | _ => to_string x
                       end) xs)
  | VObj _ => "[object Object]"
  | VErr msg =>
      if String.eqb msg EmptyString then "Error" else "Error: " +:+ msg
  | VGlobal => "[object Window]"
  | VFun _ => "function"
  end.

(** ToNumber *)
Definition to_number (v : value) : number :=
  match v with
  | VUndef => NaN
  | VNull => Fin 0
  | VBool true => Fin 1
  | VBool false => Fin 0
  | VNum n => n
  | VStr s => string_to_number s
  | VFun _ => NaN
  | _ => string_to_number (to_string v)
  end.

(** ToPrimitive keeps primitives and turns objects into their string:
    the objects of the scripts have no conversion methods of their
    own. *)
Definition to_primitive (v : value) : value :=
  match v with
  | VArr _ | VObj _ | VErr _ | VGlobal | VFun _ => VStr (to_string v)
  | _ => v
  end.

(** [a < b] after coercion: two strings compare as strings, anything
    else compares as numbers, and a comparison with [NaN] is false. *)
Definition js_lt (a b : value) : bool :=
  match to_primitive a, to_primitive b with
  | VStr s, VStr t => String.ltb s t
  | pa, pb =>
      match to_number pa, to_number pb with
      | Fin x, Fin y => x <? y
      | _, _ => false
      end
  end.

(** [a > b] is [b < a]. *)
Definition js_gt (a b : value) : bool := js_lt b a.

(** [a + b]: string concatenation as soon as one side is a string. *)
Definition js_add (a b : value) : value :=
  match to_primitive a, to_primitive b with
  | VStr s, pb => VStr (s +:+ to_string pb)
  | pa, VStr t => VStr (to_string pa +:+ t)
  | pa, pb =>
      match to_number pa, to_number pb with
      | Fin x, Fin y => VNum (Fin (x + y))
      | _, _ => VNum NaN
      end
  end.

(** [a === b] on the operands the scripts use: primitives compare by
    value ([NaN] equals nothing), the global object equals itself, and
    an array, object literal, error or function operand is a new object,
    equal to no other value. *)
Definition strict_eq (a b : value) : bool :=
  match a, b with
  | VUndef, VUndef | VNull, VNull | VGlobal, VGlobal => true
  | VBool x, VBool y => Bool.eqb x y
  | VNum (Fin x), VNum (Fin y) => x =? y
  | VStr x, VStr y => String.eqb x y
  | _, _ => false
  end.

(** ** Array methods used by the array snippet *)

Module Arrays.

(** A callback receives the element, its index and the array. *)
Definition callback : Type := value -> Z -> list value -> value.

(** FindViaPredicate: the first index (and element) whose callback
    result is truthy. *)
Fixpoint find_from (cb : callback) (arr : list value) (k : Z)
    (rest : list value) : option (Z * value) :=
  match rest with
  | [] => None
  | x :: rest' =>
      if to_boolean (cb x k arr) then Some (k, x)
      else find_from cb arr (k + 1) rest'
  end.

(** [arr.find(cb)] *)
Definition find (cb : callback) (arr : list value) : value :=
  match find_from cb arr 0 arr with
  | Some (_, x) => x
  | None => VUndef
  end.

(** [arr.findIndex(cb)] *)
Definition findIndex (cb : callback) (arr : list value) : Z :=
  match find_from cb arr 0 arr with
  | Some (k, _) => k
  | None => -1
  end.

(** FlattenIntoArray: an element that is an array is spliced in while
    depth remains. *)
Fixpoint flatten (depth : nat) (xs : list value) : list value :=
  match depth with
  | O => xs
  | S d =>
      flat_map (fun x => match x with
                         | VArr ys => flatten d ys
                         | _ => [x]
                         end) xs
  end.

(** [arr.flat(depth)]; the depth defaults to 1 and a negative depth
    counts as 0. *)
Definition flat (depth : option Z) (arr : list value) : list value :=
  match depth with
  | None => flatten 1 arr
  | Some d => flatten (Z.to_nat d) arr
  end.

(** [new Array(a, b, c)] with several arguments holds the arguments. *)
Definition new_Array (items : list value) : list value := items.

(** [arr.every(cb)] *)
Fixpoint every_from (cb : callback) (arr : list value) (k : Z)
    (rest : list value) : bool :=
  match rest with
  | [] => true
  | x :: rest' =>
      if to_boolean (cb x k arr) then every_from cb arr (k + 1) rest'
      else false
  end.

Definition every (cb : callback) (arr : list value) : bool :=
  every_from cb arr 0 arr.

(** [arr.splice(start, deleteCount, ...items)]: the removed elements and
    the array after the call.  A negative [start] counts from the end;
    both numbers are clamped to the array. *)
Definition splice (start deleteCount : Z) (items arr : list value)
    : list value * list value :=
  let len := Z.of_nat (length arr) in
  let from := if start <? 0 then Z.max (len + start) 0 else Z.min start len in
  let del := Z.min (Z.max deleteCount 0) (len - from) in
  (take (Z.to_nat del) (drop (Z.to_nat from) arr),
   take (Z.to_nat from) arr ++ items ++ drop (Z.to_nat (from + del)) arr).

(** [arr.indexOf(x)] *)
Fixpoint indexOf_from (x : value) (k : Z) (rest : list value) : Z :=
  match rest with
  | [] => -1
  | y :: rest' => if strict_eq y x then k else indexOf_from x (k + 1) rest'
  end.

Definition indexOf (x : value) (arr : list value) : Z := indexOf_from x 0 arr.

(** [arr.lastIndexOf(x)] *)
Definition lastIndexOf (x : value) (arr : list value) : Z :=
  match indexOf_from x 0 (rev arr) with
  | -1 => -1
  | k => Z.of_nat (length arr) - 1 - k
  end.

(** [a.concat(b, c)]: an argument that is an array is spread. *)
Definition concat (a : list value) (others : list value) : list value :=
  a ++ flat_map (fun o => match o with VArr ys => ys | _ => [o] end) others.

(** [arr.join(sep)] *)
Definition join (sep : string) (arr : list value) : string :=
  join_with sep
    (map (fun x => match x with
                   | VUndef | VNull => EmptyString
                   | _ => to_string x
                   end) arr).

Definition upper_ascii (c : ascii) : ascii :=
  let n := nat_of_ascii c in
  if (97 <=? n)%nat && (n <=? 122)%nat then ascii_of_nat (n - 32) else c.

(** [s.toUpperCase()] on ASCII letters. *)
Fixpoint toUpperCase (s : string) : string :=
  match s with
  | EmptyString => EmptyString
  | String c r => String (upper_ascii c) (toUpperCase r)
  end.

(** [s.replace(pat, rep)] with a string pattern: the first occurrence of
    [pat] is replaced. *)
Definition replace (pat rep s : string) : string :=
  match String.index 0 pat s with
  | Some i =>
      String.substring 0 i s +:+ rep
        +:+ String.substring (i + String.length pat)
              (String.length s - (i + String.length pat)) s
  | None => s
  end.

(** part_002, line 5 *)
Definition arr : list value :=
  [num 1; num 2; num 3;
   VArr [num 4; num 5;
         VArr [num 6; num 7; VArr [num 8; num 9; VArr [num 10]]]]].

(** part_002, line 33 *)
Definition list_ : list value :=
  [num 1; VStr "13"; num 13; num 22; num 32; num 22].

(** [ele => ele > 10] and [ele => ele > 100] *)
Definition gt10 : callback := fun ele _ _ => VBool (js_gt ele (num 10)).
Definition gt100 : callback := fun ele _ _ => VBool (js_gt ele (num 100)).

End Arrays.


(** ** The world a script runs in *)

Inductive result : Type :=
| Normal (v : value)
| Throw (e : value).

Inductive console_event : Type :=
| ConsoleLog (args : list value)
| ConsoleError (args : list value).

(** A browser realm as far as the scripts can tell: the own properties
    of the global object ([window]), the properties scripts add to
    [Function.prototype], and what has been written to the console.
    An object handed to the console is recorded as the value itself and
    the global object as the reference [VGlobal].  The built-in methods
    the scripts rely on ([call], [bind], [console.log], the array and
    string methods) are the standard ones. *)
Record world : Type := World {
  globals : gmap string value;
  fun_proto : gmap string value;
  console : list console_event
}.

Definition set_global (k : string) (v : value) (w : world) : world :=
  World (<[k := v]> (globals w)) (fun_proto w) (console w).

Definition set_fun_proto (k : string) (v : value) (w : world) : world :=
  World (globals w) (<[k := v]> (fun_proto w)) (console w).

Definition console_log (args : list value) (w : world) : world :=
  World (globals w) (fun_proto w) (console w ++ [ConsoleLog args]).

Definition console_error (args : list value) (w : world) : world :=
  World (globals w) (fun_proto w) (console w ++ [ConsoleError args]).

Fixpoint assoc (k : string) (props : list (string * value)) : value :=
  match props with
  | [] => VUndef
  | (k', v) :: rest => if String.eqb k k' then v else assoc k rest
  end.

(** [o.k] for a property name [k] that no built-in object defines (the
    scripts read [firstName], [lastName], [mybind], [objItself], and
    [name] on object literals and on the global object).  An object
    literal and the global object answer with their own property, a
    function with what scripts added to [Function.prototype], and any
    other value has no such property.  Reading a property of [undefined]
    or [null] throws. *)
Definition get_prop (w : world) (o : value) (k : string) : result :=
  match o with
  | VUndef | VNull => Throw (VErr "TypeError: cannot read properties")
  | VObj props => Normal (assoc k props)
  | VGlobal => Normal (default VUndef (globals w !! k))
  | VFun _ => Normal (default VUndef (fun_proto w !! k))
  | _ => Normal VUndef
  end.

(** The [this] a non-strict function body sees: [undefined] and [null]
    are replaced by the global object. *)
Definition sloppy_this (thisArg : value) : value :=
  match thisArg with
  | VUndef | VNull => VGlobal
  | _ => thisArg
  end.

(** A call event: the callee, the [this] argument and the arguments of
    one call of a function object.  The log of call events is ghost
    state: function bodies cannot read or change it. *)
Definition call_event : Type := fn * value * list value.
Definition callee (ev : call_event) : fn := ev.1.1.

Record state : Type := State {
  wld : world;
  calls : list call_event
}.

Definition upd_world (f : world -> world) (s : state) : state :=
  State (f (wld s)) (calls s).

Definition record_call (f : fn) (this : value) (args : list value)
    (s : state) : state :=
  State (wld s) (calls s ++ [(f, this, args)]).

(** ** [class Client] (asyncPromise.js, lines 152-167)

    Instances are objects in a heap, addressed by location, so that a
    later call sees what an earlier call wrote. *)

Module ClientClass.

Abbreviation heap := (gmap nat (gmap string value)).

(** [new Client()]: the constructor sets [this.clientId = "124"] on a
    new object. *)
Definition new_Client (h : heap) : nat * heap :=
  let c := fresh (dom h) in
  (c, <[c := {["clientId" := VStr "124"]}]> h).

(** [this.clientId]; a property that is absent reads as [undefined]. *)
Definition getClientId (this : nat) (h : heap) : value :=
  match h !! this with
  | Some o => default VUndef (o !! "clientId")
  | None => VUndef
  end.

(** [return this.clientId = newId]: the assignment's value is [newId]. *)
Definition changeClientId (this : nat) (newId : value) (h : heap)
    : value * heap :=
  match h !! this with
  | Some o => (newId, <[this := <["clientId" := newId]> o]> h)
  | None => (newId, h)
  end.

(** [console.log(`welcome ${this.getClientId()}`)] *)
Definition sayWelcome (this : nat) (h : heap) (w : world) : value * world :=
  (VUndef,
   console_log [VStr ("welcome " +:+ to_string (getClientId this h))] w).

(** The method calls a program can make on [Client] instances. *)
Inductive op : Type :=
| New
| Get (c : nat)
| Change (c : nat) (v : value).

Definition run_op (o : op) (h : heap) : heap :=
  match o with
  | New => (new_Client h).2
  | Get _ => h
  | Change c v => (changeClientId c v h).2
  end.

Definition run_ops (ops : list op) (h : heap) : heap :=
  foldl (fun h o => run_op o h) h ops.

(** The value most recently passed to [c.changeClientId], or [cur] when
    there was no such call. *)
Definition last_written (c : nat) (ops : list op) (cur : value) : value :=
  foldl (fun v o =>
           match o with
           | Change c' v' => if decide (c' = c) then v' else v
           | _ => v
           end) cur ops.

End ClientClass.

(** ** [Core js Fumdamental/script.js] *)

(** script.js, lines 6-9 *)
Definition name1 : value :=
  VObj [("firstName", VStr "Pijush"); ("lastName", VStr "Ray mondal")].

(** script.js, lines 11-13: [printName] logs
    [this.firstName + " " + this.lastName]. *)
Definition printName (thisArg : value) (w : world) : result * world :=
  let this := sloppy_this thisArg in
  match get_prop w this "firstName", get_prop w this "lastName" with
  | Normal a, Normal b =>
      (Normal VUndef, console_log [js_add (js_add a (VStr " ")) b] w)
  | Throw e, _ | _, Throw e => (Throw e, w)
  end.

(** script.js, lines 20-29: the body of [Function.prototype.mybind] up to
    its [return].  [obj] is the function [mybind] is called on; [params]
    is assigned without a declaration, so it becomes a property of the
    global object. *)
Definition mybind (thisArg : value) (args : list value) (w : world)
    : result * world :=
  let this := sloppy_this thisArg in
  let obj := this in
  let params := VArr (drop 1 args) in
  let w := set_global "params" params w in
  let w := console_log [params] w in
  let w := console_log [VStr (typeof params)] w in
  (Normal (VFun (FMybound obj args)), w).

(** Modelled from the ECMAScript definition of the built-in
    [Function.prototype.bind], the reference [mybind] is compared with:
    the bound function remembers the target, the first argument as
    [this] and the remaining arguments; binding has no other effect. *)
Definition native_bind (this : value) (args : list value) (w : world)
    : result * world :=
  match this with
  | VFun target =>
      (Normal (VFun (FNativeBound target (nth 0 args VUndef) (drop 1 args))), w)
  | _ => (Throw (VErr "TypeError: Bind must be called on a function"), w)
  end.

(** ** The [this]-keyword snippet (asyncPromise.js, lines 93-170) *)

Fixpoint set_assoc (k : string) (v : value) (props : list (string * value))
    : list (string * value) :=
  match props with
  | [] => [(k, v)]
  | (k', v') :: rest =>
      if String.eqb k k' then (k, v) :: rest else (k', v') :: set_assoc k v rest
  end.

(** [const greet = () => { console.log(this) }]: an arrow function keeps
    the [this] of the script's top level, the global object. *)
Definition greet (w : world) : result * world :=
  (Normal VUndef, console_log [VGlobal] w).

(** [function Person(person) { this.name = person, console.log(this) }]
    run on a given [this]: the object after the assignment, and the
    world.  On the global object the assignment sets [window.name],
    which the browser keeps as a string; on a receiver that is no
    object literal it leaves no trace here. *)
Definition Person (this : value) (person : value) (w : world)
    : value * world :=
  match this with
  | VObj props =>
      let this' := VObj (set_assoc "name" person props) in
      (this', console_log [this'] w)
  | VGlobal =>
      (VGlobal,
       console_log [VGlobal] (set_global "name" (VStr (to_string person)) w))
  | _ => (this, console_log [this] w)
  end.

(** [new Person(person)]: [this] is a new empty object, which the call
    returns. *)
Definition new_Person (person : value) (w : world) : value * world :=
  Person (VObj []) person w.

(** [innerFunction], declared inside [objItself]: [name] is not declared
    in any enclosing scope and resolves to the global object's property
    of that name. *)
Definition innerFunction (thisArg : value) (w : world) : result * world :=
  let w := console_log [sloppy_this thisArg] w in
  match globals w !! "name" with
  | Some v => (Normal VUndef, console_log [v] w)
  | None => (Throw (VErr "ReferenceError: name is not defined"), w)
  end.

Definition objItself_label : string := "🚀 ~ file: script.js:35 ~ name".

(** The method [objItself] of [personInfo]; [innerFunction()] is a plain
    call, its [this] is [undefined]. *)
Definition objItself (thisArg : value) (w : world) : result * world :=
  let this := sloppy_this thisArg in
  let w := console_log [VStr objItself_label; this] w in
  match get_prop w this "name" with
  | Throw e => (Throw e, w)
  | Normal n =>
      let w := console_log [VStr objItself_label; n] w in
      match innerFunction VUndef w with
      | (Normal _, w) => (Normal VUndef, w)
      | (Throw e, w) => (Throw e, w)
      end
  end.

Definition personInfo : value :=
  VObj [("name", VStr "ayan"); ("age", num 25);
        ("objItself", VFun (FDecl "objItself"))].

(** The body run by a call of the declared function [name]. *)
Definition decl_body (name : string) (this : value) (args : list value)
    (w : world) : result * world :=
  match name with
  | "printName" => printName this w
  | "greet" => greet w
  | "Person" =>
      (Normal VUndef, (Person (sloppy_this this) (nth 0 args VUndef) w).2)
  | "objItself" => objItself this w
  | "innerFunction" => innerFunction this w
  | _ => (Throw (VErr "ReferenceError: function is not defined"), w)
  end.

(** ** The promise of asyncPromise.js (lines 70-87) *)

Module Promises.

Inductive pstate : Type :=
| Pending
| Fulfilled (v : value)
| Rejected (e : value).

(** The handlers the script registers: [(res) => { console.log(res) }]
    and [(err) => { console.log(err); console.error(err) }]. *)
Inductive handler : Type :=
| ThenLog
| CatchLog.

(** A reaction registered by [then]: the two optional handlers and the
    promise that [then] returned. *)
Record reaction : Type := Reaction {
  on_fulfilled : option handler;
  on_rejected : option handler;
  derived : nat
}.

Record promise : Type := Promise {
  pst : pstate;
  reactions : list reaction
}.

(** A microtask: run a reaction for a promise settled as [settled]. *)
Inductive job : Type :=
| ReactionJob (r : reaction) (settled : pstate).

(** A pending timer: the callback of lines 71-75, which tests [result]
    and settles the promise [target]. *)
Record timer : Type := Timer {
  delay : Z;
  result_const : value;
  target : nat
}.

(** Ghost trace of what the settling functions and handlers did. *)
Inductive event : Type :=
| CalledResolve (p : nat) (v : value)
| CalledReject (p : nat) (e : value)
| RanHandler (h : handler) (arg : value).

Record loop : Type := Loop {
  lw : world;
  promises : list promise;
  microtasks : list job;
  timers : list timer;
  trace : list event
}.

Definition set_lw (w : world) (l : loop) : loop :=
  Loop w (promises l) (microtasks l) (timers l) (trace l).

Definition add_event (ev : event) (l : loop) : loop :=
  Loop (lw l) (promises l) (microtasks l) (timers l) (trace l ++ [ev]).

(** A new pending promise; promises are numbered in creation order. *)
Definition new_promise (l : loop) : nat * loop :=
  (length (promises l),
   Loop (lw l) (promises l ++ [Promise Pending []]) (microtasks l)
        (timers l) (trace l)).

(** Settling a pending promise queues one job per reaction; a promise
    that is already settled stays as it is. *)
Definition settle (p : nat) (st : pstate) (l : loop) : loop :=
  match promises l !! p with
  | Some (Promise Pending rs) =>
      Loop (lw l) (<[p := Promise st []]> (promises l))
           (microtasks l ++ map (fun r => ReactionJob r st) rs)
           (timers l) (trace l)
  | _ => l
  end.

(** [p.then(onFulfilled, onRejected)]; [p.catch(h)] is [p.then(undefined, h)]. *)
Definition then_ (p : nat) (onF onR : option handler) (l : loop) : nat * loop :=
  let '(d, l) := new_promise l in
  let r := Reaction onF onR d in
  match promises l !! p with
  | Some (Promise Pending rs) =>
      (d, Loop (lw l) (<[p := Promise Pending (rs ++ [r])]> (promises l))
               (microtasks l) (timers l) (trace l))
  | Some (Promise st _) =>
      (d, Loop (lw l) (promises l) (microtasks l ++ [ReactionJob r st])
               (timers l) (trace l))
  | None => (d, l)
  end.

(** [setTimeout(cb, delay)]: timers fire in order of delay, and in
    order of registration for equal delays. *)
Fixpoint insert_timer (t : timer) (ts : list timer) : list timer :=
  match ts with
  | [] => [t]
  | t' :: rest =>
      if delay t <? delay t' then t :: ts else t' :: insert_timer t rest
  end.

Definition set_timeout (t : timer) (l : loop) : loop :=
  Loop (lw l) (promises l) (microtasks l) (insert_timer t (timers l)) (trace l).

Definition run_handler (h : handler) (arg : value) (w : world)
    : result * world :=
  match h with
  | ThenLog => (Normal VUndef, console_log [arg] w)
  | CatchLog => (Normal VUndef, console_error [arg] (console_log [arg] w))
  end.

(** One reaction job: with a handler for the settled state, run it and
    settle the derived promise from its outcome; without one, pass the
    state on to the derived promise. *)
Definition run_job (j : job) (l : loop) : loop :=
  let '(ReactionJob r st) := j in
  let with_handler (h : handler) (arg : value) :=
    let '(res, w) := run_handler h arg (lw l) in
    let l := add_event (RanHandler h arg) (set_lw w l) in
    match res with
    | Normal x => settle (derived r) (Fulfilled x) l
    | Throw e => settle (derived r) (Rejected e) l
    end in
  match st with
  | Pending => l
  | Fulfilled v =>
      match on_fulfilled r with
      | Some h => with_handler h v
      | None => settle (derived r) (Fulfilled v) l
      end
  | Rejected e =>
      match on_rejected r with
      | Some h => with_handler h e
      | None => settle (derived r) (Rejected e) l
      end
  end.

(** Lines 72-74: [if (result) resolve("promise met succesfully"); else
    reject(new Error("why't promise succesfull!"))]. *)
Definition fire (t : timer) (l : loop) : loop :=
  if to_boolean (result_const t)
  then
    let v := VStr "promise met succesfully" in
    settle (target t) (Fulfilled v) (add_event (CalledResolve (target t) v) l)
  else
    let e := VErr "why't promise succesfull!" in
    settle (target t) (Rejected e) (add_event (CalledReject (target t) e) l).

(** One turn of the event loop: microtasks first, then the next timer. *)
Definition step (l : loop) : option loop :=
  match microtasks l with
  | j :: js =>
      Some (run_job j (Loop (lw l) (promises l) js (timers l) (trace l)))
  | [] =>
      match timers l with
      | t :: ts =>
          Some (fire t (Loop (lw l) (promises l) [] ts (trace l)))
      | [] => None
      end
  end.

Fixpoint run (fuel : nat) (l : loop) : loop :=
  match fuel with
  | O => l
  | S fuel' =>
      match step l with
      | Some l' => run fuel' l'
      | None => l
      end
  end.

Definition idle (l : loop) : Prop := step l = None.

(** The promise [sub] is the first promise the script creates. *)
Definition sub : nat := 0%nat.

(** asyncPromise.js, lines 9-93, up to the end of the script's own
    run: the timer is set and the handlers are registered.  [result] is
    the constant tested in the timer callback. *)
Definition top_level (result : value) (w : world) : loop :=
  let w := console_log [VStr "ex:2"] w in
  let w := console_log [VStr "start syn code"] w in
  let w := console_log [VStr "Syn--Promises in JavaScript"] w in
  let w := console_log [VStr "end syn code"] w in
  let w := console_log [VStr "ex:2"] w in
  let w := console_log [VStr "start Promises code"] w in
  let l := Loop w [] [] [] [] in
  let '(sub, l) := new_promise l in
  let l := set_timeout (Timer 3000 result sub) l in
  let '(p1, l) := then_ sub (Some ThenLog) None l in
  let '(p2, l) := then_ p1 None (Some CatchLog) l in
  set_lw (console_log [VStr "end Promises code"] (lw l)) l.

(** Line 72: [const result = 0]. *)
Definition result : value := num 0.

(** The whole run: the script, then the event loop. *)
Definition run_script (fuel : nat) (w : world) : loop :=
  run fuel (top_level result w).

End Promises.

(** ** [Date/script.js] *)

(** Modelled from the CLDR English data behind
    [Intl.RelativeTimeFormat("en-US", { numeric })], for the unit [day]:
    with [numeric: "auto"] the values -1, 0 and 1 have names, and every
    other case is spelled with the number. *)
Definition format_day (numeric : string) (n : Z) : string :=
  let spelled :=
    let days := number_to_string (Fin (Z.abs n))
                  +:+ (if Z.abs n =? 1 then " day" else " days") in
    if n <? 0 then days +:+ " ago" else "in " +:+ days in
  if String.eqb numeric "auto" then
    match n with
    | -1 => "yesterday"
    | 0 => "today"
    | 1 => "tomorrow"
    | _ => spelled
    end
  else spelled.

Section Calls.

(** The body of the function [FUser id], for every [id]: any function
    of [this], the arguments and the world. *)
Variable user_body : nat -> value -> list value -> world -> result * world.

(** Calling a function object.  The closure returned by [mybind]
    (script.js, lines 25-28) logs [args[0]] and runs
    [obj.call(args[0])]: [obj] is called with [this = args[0]] and no
    argument, its result is dropped.  An [obj] that is no function is
    taken to have no [call] that can be called (see [lacks_call]).  A native bound function calls
    its target with the bound [this] and the bound arguments followed
    by the call's arguments, and returns the target's result. *)
Fixpoint apply_fn (f : fn) (this : value) (args : list value) (s : state)
    : result * state :=
  let s := record_call f this args s in
  match f with
  | FUser id =>
      let '(r, w) := user_body id this args (wld s) in
      (r, State w (calls s))
  | FDecl name =>
      let '(r, w) := decl_body name this args (wld s) in
      (r, State w (calls s))
  | FMybind =>
      let '(r, w) := mybind this args (wld s) in
      (r, State w (calls s))
  | FMybound obj bargs =>
      let s := upd_world (console_log [nth 0 bargs VUndef]) s in
      match obj with
      | VFun g =>
          let '(r, s) := apply_fn g (nth 0 bargs VUndef) [] s in
          (match r with Normal _ => Normal VUndef | Throw e => Throw e end, s)
      | _ => (Throw (VErr "TypeError: obj.call is not a function"), s)
      end
  | FNativeBound target bthis bargs =>
      apply_fn target bthis (bargs ++ args) s
  end.

(** [f.mybind(...bargs)] followed by a call of the returned function
    with [this = t] and arguments [cargs]. *)
Definition bind_then_call
    (bind : value -> list value -> world -> result * world)
    (f : fn) (bargs : list value) (t : value) (cargs : list value)
    (s : state) : result * state :=
  match bind (VFun f) bargs (wld s) with
  | (Normal (VFun c), w) => apply_fn c t cargs (State w (calls s))
  | (Normal _, w) => (Throw (VErr "TypeError: not a function"), State w (calls s))
  | (Throw e, w) => (Throw e, State w (calls s))
  end.

(** *** Whole scripts

    A statement may throw and changes the state; statements are run in
    sequence until one throws. *)
Definition stmt : Type := state -> result * state.

Definition seq (m : stmt) (k : value -> stmt) : stmt :=
  fun s =>
    match m s with
    | (Normal v, s') => k v s'
    | (Throw e, s') => (Throw e, s')
    end.

Notation "x <- m ;; k" := (seq m (fun x => k))
  (at level 100, m at next level, right associativity).
Notation "m ;; k" := (seq m (fun _ => k))
  (at level 100, right associativity).

Definition lift (f : world -> result * world) : stmt :=
  fun s => let '(r, w) := f (wld s) in (r, State w (calls s)).

Definition lift_new (f : world -> value * world) : stmt :=
  fun s => let '(v, w) := f (wld s) in (Normal v, State w (calls s)).

Definition effect (f : world -> world) : stmt :=
  fun s => (Normal VUndef, upd_world f s).

Definition log (args : list value) : stmt := effect (console_log args).

(** [o.k] as a statement. *)
Definition read (o : value) (k : string) : stmt :=
  lift (fun w => (get_prop w o k, w)).

(** [f.call(this, ...args)] and [f(...args)] on a value [f]. *)
Definition call (f : value) (this : value) (args : list value) : stmt :=
  match f with
  | VFun g => apply_fn g this args
  | _ => fun s => (Throw (VErr "TypeError: not a function"), s)
  end.

(** [Core js Fumdamental/script.js], top to bottom. *)
Definition script_js : stmt :=
  log [VStr "Core js fundamental"] ;;
  let printName := VFun (FDecl "printName") in
  printMyName <- lift (native_bind printName [name1]) ;;
  call printMyName VUndef [] ;;
  effect (set_fun_proto "mybind" (VFun FMybind)) ;;
  mybind_method <- read printName "mybind" ;;
  printMyName2 <- call mybind_method printName [name1; VStr "joynager"] ;;
  call printMyName2 VUndef [].

(** The [this]-keyword snippet, top to bottom.  The function declaration
    [Person] is hoisted: it is a property of the global object before the
    first statement runs.  At the top level [this] is the global object,
    which [window] names too; [this == window] compares two objects, as
    [===] does. *)
Definition this_keyword_js : stmt :=
  effect (set_global "Person" (VFun (FDecl "Person"))) ;;
  log [VStr "this keyWord"] ;;
  let this := VGlobal in
  let window := VGlobal in
  let a := this in
  effect (set_global "name" (VStr "sarah")) ;;
  n <- read window "name" ;;
  log [n] ;;
  log [VBool (strict_eq this window)] ;;
  call (VFun (FDecl "greet")) VUndef [] ;;
  log [VStr "________________"] ;;
  person1 <- lift_new (new_Person (VStr "pijush")) ;;
  log [VStr "🚀 ~  person1 "; person1] ;;
  person2 <- lift_new (new_Person (VStr "shubho")) ;;
  log [VStr "🚀 "; person2] ;;
  method <- read personInfo "objItself" ;;
  call method personInfo [] ;;
  log [VStr "________________"] ;;
  log [VStr "________________"] ;;
  let '(newContract, h) := ClientClass.new_Client ∅ in
  welcome <- lift_new (ClientClass.sayWelcome newContract h) ;;
  log [VStr "🚀 ~ file: script.js:64 ~ newContract"; welcome].

(** asyncPromise.js, lines 1-93: the script and then the event loop,
    run until it is idle, which takes three turns: the timer and two
    reaction jobs. *)
Definition async_promise_js : stmt :=
  effect (fun w => Promises.lw (Promises.run_script 3 w)).

(** The array snippet (part_002), top to bottom. *)
Definition array_js : stmt :=
  log [VStr "array"] ;;
  let arrayNew := Arrays.new_Array [num 5; num 8; num 9] in
  log [VArr arrayNew] ;;
  let arr := Arrays.arr in
  log [VArr arr] ;;
  let lZero := Arrays.flat None arr in
  log [VArr lZero] ;;
  let lZero1 := Arrays.flat (Some 999) arr in
  log [VArr lZero1] ;;
  let checkEvery : Arrays.callback := fun el _ _ => VBool (js_lt (num 0) el) in
  log [VBool (Arrays.every checkEvery [num 1; num 7; num 8])] ;;
  log [VStr (to_string (VArr arr))] ;;
  let cars := [VStr "Mazda"; VStr "BMW"; VStr "Ford"] in
  let '(removed, cars) := Arrays.splice 1 1 [VStr "nano"; VStr "thar"] cars in
  log [VArr removed] ;;
  log [VArr cars] ;;
  let list := Arrays.list_ in
  log [Arrays.find Arrays.gt10 list] ;;
  log [num (Arrays.findIndex Arrays.gt10 list)] ;;
  log [num (Arrays.findIndex Arrays.gt100 list)] ;;
  log [VStr "index of 22"; num (Arrays.indexOf (num 22) list)] ;;
  log [VStr "lastindex of 22"; num (Arrays.lastIndexOf (num 22) list)] ;;
  let concatElement1 := [VStr "p"; VStr "j"; VStr "i"] in
  let concatElement2 := [VStr "u"; VStr "s"; VStr "h"] in
  let concatElement3 := [VStr "r"; VStr "a"; VStr "y"] in
  let allElement :=
    Arrays.replace "R" " R"
      (Arrays.toUpperCase
         (Arrays.join EmptyString
            (Arrays.concat concatElement1
               [VArr concatElement2; VArr concatElement3]))) in
  log [VStr allElement].

(** [Date/script.js], top to bottom. *)
Definition date_js : stmt :=
  log [VStr "relative time"] ;;
  log [VStr (format_day "auto" (-1))] ;;
  log [VStr (format_day "always" (-1))].

(** *** What a script does to the realm *)

(** A primitive effect on the realm. *)
Inductive write : Type :=
| SetGlobal (k : string) (v : value)
| SetFunProto (k : string) (v : value)
| Emit (ev : console_event).

Definition apply_write (u : write) (w : world) : world :=
  match u with
  | SetGlobal k v => set_global k v w
  | SetFunProto k v => set_fun_proto k v w
  | Emit ev => World (globals w) (fun_proto w) (console w ++ [ev])
  end.

Definition apply_writes (us : list write) (w : world) : world :=
  foldl (fun w u => apply_write u w) w us.

Definition prints (us : list write) : list console_event :=
  flat_map (fun u => match u with Emit ev => [ev] | _ => [] end) us.

(** What a run added to the console. *)
Definition new_console (w w' : world) : list console_event :=
  drop (length (console w)) (console w').

(** A script that acts on every realm by the same writes and ends the
    same way: nothing it does depends on the state it starts from. *)
Definition state_independent (f : stmt) : Prop :=
  exists (r : result) (us : list write),
    forall s : state, (f s).1 = r /\ wld (f s).2 = apply_writes us (wld s).

(** The writes of each script, in order. *)
Definition script_js_writes : list write :=
  [Emit (ConsoleLog [VStr "Core js fundamental"]);
   Emit (ConsoleLog [VStr "Pijush Ray mondal"]);
   SetFunProto "mybind" (VFun FMybind);
   SetGlobal "params" (VArr [VStr "joynager"]);
   Emit (ConsoleLog [VArr [VStr "joynager"]]);
   Emit (ConsoleLog [VStr "object"]);
   Emit (ConsoleLog [name1]);
   Emit (ConsoleLog [VStr "Pijush Ray mondal"])].

Definition this_keyword_js_writes : list write :=
  [SetGlobal "Person" (VFun (FDecl "Person"));
   Emit (ConsoleLog [VStr "this keyWord"]);
   SetGlobal "name" (VStr "sarah");
   Emit (ConsoleLog [VStr "sarah"]);
   Emit (ConsoleLog [VBool true]);
   Emit (ConsoleLog [VGlobal]);
   Emit (ConsoleLog [VStr "________________"]);
   Emit (ConsoleLog [VObj [("name", VStr "pijush")]]);
   Emit (ConsoleLog [VStr "🚀 ~  person1 "; VObj [("name", VStr "pijush")]]);
   Emit (ConsoleLog [VObj [("name", VStr "shubho")]]);
   Emit (ConsoleLog [VStr "🚀 "; VObj [("name", VStr "shubho")]]);
   Emit (ConsoleLog [VStr objItself_label; personInfo]);
   Emit (ConsoleLog [VStr objItself_label; VStr "ayan"]);
   Emit (ConsoleLog [VGlobal]);
   Emit (ConsoleLog [VStr "sarah"]);
   Emit (ConsoleLog [VStr "________________"]);
   Emit (ConsoleLog [VStr "________________"]);
   Emit (ConsoleLog [VStr "welcome 124"]);
   Emit (ConsoleLog [VStr "🚀 ~ file: script.js:64 ~ newContract"; VUndef])].

Definition async_promise_js_writes : list write :=
  map Emit
    [ConsoleLog [VStr "ex:2"]; ConsoleLog [VStr "start syn code"];
     ConsoleLog [VStr "Syn--Promises in JavaScript"];
     ConsoleLog [VStr "end syn code"]; ConsoleLog [VStr "ex:2"];
     ConsoleLog [VStr "start Promises code"];
     ConsoleLog [VStr "end Promises code"];
     ConsoleLog [VErr "why't promise succesfull!"];
     ConsoleError [VErr "why't promise succesfull!"]].

Definition array_js_writes : list write :=
  map Emit
    [ConsoleLog [VStr "array"];
     ConsoleLog [VArr [num 5; num 8; num 9]];
     ConsoleLog [VArr Arrays.arr];
     ConsoleLog
       [VArr [num 1; num 2; num 3; num 4; num 5;
              VArr [num 6; num 7; VArr [num 8; num 9; VArr [num 10]]]]];
     ConsoleLog
       [VArr [num 1; num 2; num 3; num 4; num 5;
              num 6; num 7; num 8; num 9; num 10]];
     ConsoleLog [VBool true];
     ConsoleLog [VStr "1,2,3,4,5,6,7,8,9,10"];
     ConsoleLog [VArr [VStr "BMW"]];
     ConsoleLog [VArr [VStr "Mazda"; VStr "nano"; VStr "thar"; VStr "Ford"]];
     ConsoleLog [VStr "13"];
     ConsoleLog [num 1];
     ConsoleLog [num (-1)];
     ConsoleLog [VStr "index of 22"; num 3];
     ConsoleLog [VStr "lastindex of 22"; num 5];
     ConsoleLog [VStr "PJIUSH RAY"]].

Definition date_js_writes : list write :=
  map Emit
    [ConsoleLog [VStr "relative time"];
     ConsoleLog [VStr "yesterday"];
     ConsoleLog [VStr "1 day ago"]].

(** A source file: its path, the names it declares at its top level, and
    its run. *)
Record source_file : Type := SourceFile {
  path : string;
  declares : list string;
  body : stmt
}.

Definition script_file : source_file :=
  SourceFile "Core js Fumdamental/script.js"
    ["name1"; "printName"; "printMyName"; "printMyName2"] script_js.

Definition promise_file : source_file :=
  SourceFile "AsyncPromisse/asyncPromise.js" ["sub"] async_promise_js.

Definition this_keyword_file : source_file :=
  SourceFile "AsyncPromisse/asyncPromise.js, lines 93-170"
    ["a"; "greet"; "Person"; "person1"; "personInfo"; "Client"; "newContract"]
    this_keyword_js.

Definition array_file : source_file :=
  SourceFile "unnamed/part_002"
    ["arrayNew"; "arr"; "lZero"; "lZero1"; "checkEvery"; "cars"; "list";
     "concatElement1"; "concatElement2"; "concatElement3"; "allElement"]
    array_js.

Definition date_file : source_file :=
  SourceFile "Date/script.js"
    ["dateFormatterAuto"; "dateFormatterNumeric"] date_js.

(** The source files that run; the others are Markdown notes. *)
Definition files : list source_file :=
  [script_file; promise_file; this_keyword_file; array_file; date_file].

End Calls.


(** How many closures wrap the innermost function. *)
Fixpoint depth (f : fn) : nat :=
  match f with
  | FMybound (VFun g) _ => S (depth g)
  | FNativeBound g _ _ => S (depth g)
  | _ => O
  end.

(** The call events added between two states. *)
Definition new_calls (s s' : state) : list call_event :=
  drop (length (calls s)) (calls s').

(** Among [evs], [f] is called exactly once, with this [this] and these
    [args]. *)
Definition called_once (f : fn) (this : value) (args : list value)
    (evs : list call_event) : Prop :=
  exists pre post,
    evs = pre ++ (f, this, args) :: post /\
    Forall (fun ev => callee ev <> f) pre /\
    Forall (fun ev => callee ev <> f) post.

(** What an observer of a bind-then-call run can see: the result, the
    console, and the calls made by the called function (its own call
    event, which names the bound function object, comes first and is
    left out). *)
Definition bind_observation (s : state) (rs : result * state)
    : result * list console_event * list call_event :=
  (rs.1, console (wld rs.2), tail (new_calls s rs.2)).

(** The error the timer callback rejects with. *)
Definition rejection : value := VErr "why't promise succesfull!".

(** What the promise script's own run writes to the console. *)
Definition top_level_lines : list console_event :=
  [ConsoleLog [VStr "ex:2"]; ConsoleLog [VStr "start syn code"];
   ConsoleLog [VStr "Syn--Promises in JavaScript"];
   ConsoleLog [VStr "end syn code"]; ConsoleLog [VStr "ex:2"];
   ConsoleLog [VStr "start Promises code"];
   ConsoleLog [VStr "end Promises code"]].

(** Running [f] from [s] leaves the global [k] as it was, unless [f]
    declares [k] itself. *)
Definition leaves_global_alone (f : source_file) (s : state) (k : string)
    : Prop :=
  k ∉ declares f ->
  globals (wld (body f s).2) !! k = globals (wld s) !! k.

(** A fresh browser realm, where [window.name] is the empty string. *)
Definition browser_realm : world :=
  World {["name" := VStr EmptyString]} ∅ [].



Definition is_function (v : value) : bool :=
  match v with
  | VFun _ => true
  | _ => false
  end.

(** [obj] is a value, not a function, whose [call] property cannot be
    called: a boolean, number, string, array or error (none of which
    has a [call]), an object literal whose own [call], if any, is no
    function, or the global object when the global [call] is no
    function. *)
Definition lacks_call (w : world) (obj : value) : bool :=
  match obj with
  | VBool _ | VNum _ | VStr _ | VArr _ | VErr _ => true
  | VObj props => negb (is_function (assoc "call" props))
  | VGlobal => negb (is_function (default VUndef (globals w !! "call")))
  | VUndef | VNull | VFun _ => false
  end.

(** An integer that a number of the script holds exactly. *)
Definition safe_integer (z : Z) : bool :=
  (- 2 ^ 53 <? z) && (z <? 2 ^ 53).

(** *** Loading scripts into one realm

    A realm also keeps the names declared at the top level of the
    scripts loaded so far: those declared with [let], [const] or
    [class], and those declared with [function] (or [var]).  A script
    that declares a name again is rejected with a [SyntaxError] before
    any of its statements runs. *)
Record realm : Type := Realm {
  rstate : state;
  lex_declared : list string;
  var_declared : list string
}.

Definition fresh_realm (s : state) : realm := Realm s [] [].

Definition mem (n : string) (l : list string) : bool :=
  existsb (String.eqb n) l.

(** The one top-level [function] declaration of the sources. *)
Definition function_declarations : list string := ["Person"].

Definition var_names (f : source_file) : list string :=
  List.filter (fun n => mem n function_declarations) (declares f).

Definition lexical_names (f : source_file) : list string :=
  List.filter (fun n => negb (mem n function_declarations)) (declares f).

(** A [let], [const] or [class] name must not be declared yet in any
    way, and a [function] name must not be declared with [let], [const]
    or [class]. *)
Definition clash (f : source_file) (r : realm) : bool :=
  existsb (fun n => mem n (lex_declared r) || mem n (var_declared r))
          (lexical_names f)
  || existsb (fun n => mem n (lex_declared r)) (var_names f).

Definition redeclared : value :=
  VErr "SyntaxError: Identifier has already been declared".

(** Loading a script: the declarations are checked and recorded, then
    the script runs. *)
Definition load (f : source_file) (r : realm) : result * realm :=
  if clash f r then (Throw redeclared, r)
  else
    ((body f (rstate r)).1,
     Realm (body f (rstate r)).2
           (lex_declared r ++ lexical_names f)
           (var_declared r ++ var_names f)).

(** An environment without functions of its own, and an empty realm,
    for the concrete runs. *)
Definition no_user : nat -> value -> list value -> world -> result * world :=
  fun _ _ _ w => (Normal VUndef, w).

Definition w0 : world := World ∅ ∅ [].

(** An environment whose functions all return 42 and do nothing else. *)
Definition returns_42 : nat -> value -> list value -> world -> result * world :=
  fun _ _ _ w => (Normal (num 42), w).

(** * Theorems *)

(** ** The array methods *)

Section ArrayFacts.

Import Arrays.

Variable cb : callback.
Variable arr : list value.

(** [find_from] stops at the first element the callback accepts. *)
Lemma find_from_Some (rest : list value) :
  forall k j x,
    find_from cb arr k rest = Some (j, x) ->
    exists pre post,
      rest = pre ++ x :: post /\
      j = k + Z.of_nat (length pre) /\
      to_boolean (cb x j arr) = true /\
      (forall i y, pre !! i = Some y ->
                   to_boolean (cb y (k + Z.of_nat i) arr) = false).
Proof.
  induction rest as [|y rest IH]; intros k j x H; simpl in H; [discriminate |].
  destruct (to_boolean (cb y k arr)) eqn:Hy.
  - injection H as <- <-. exists [], rest. simpl.
    rewrite Z.add_0_r. repeat split; [exact Hy |].
    intros i z Hi. discriminate Hi.
  - destruct (IH _ _ _ H) as (pre & post & -> & -> & Hx & Hpre).
    exists (y :: pre), post. simpl length. repeat split.
    + lia.
    + replace (k + Z.of_nat (S (length pre)))
        with (k + 1 + Z.of_nat (length pre)) by lia. exact Hx.
    + intros [|i] z Hi; simpl in Hi.
      * injection Hi as <-. by rewrite Z.add_0_r.
      * replace (k + Z.of_nat (S i)) with (k + 1 + Z.of_nat i) by lia.
        by apply Hpre.
Qed.

Lemma find_from_None (rest : list value) :
  forall k,
    find_from cb arr k rest = None ->
    forall i y, rest !! i = Some y ->
                to_boolean (cb y (k + Z.of_nat i) arr) = false.
Proof.
  induction rest as [|z rest IH]; intros k H i y Hi; [discriminate Hi |].
  simpl in H. destruct (to_boolean (cb z k arr)) eqn:Hz; [discriminate |].
  destruct i as [|i]; simpl in Hi.
  - injection Hi as <-. by rewrite Z.add_0_r.
  - replace (k + Z.of_nat (S i)) with (k + 1 + Z.of_nat i) by lia.
    by eapply IH.
Qed.

End ArrayFacts.

(** C9.  On [[1, "13", 13, 22, 32, 22]], [find(ele => ele > 10)] is the
    string ["13"], the first element whose comparison succeeds after
    coercion (the element before it fails, and the number 13 comes
    later); [findIndex] with the same callback is 1; and
    [findIndex(ele => ele > 100)] is -1, no element passing. *)
Theorem find_findIndex_on_list :
  Arrays.find Arrays.gt10 Arrays.list_ = VStr "13" /\
  typeof (Arrays.find Arrays.gt10 Arrays.list_) = "string" /\
  Arrays.list_ !! 1%nat = Some (VStr "13") /\
  Arrays.list_ !! 2%nat = Some (num 13) /\
  to_boolean (Arrays.gt10 (num 1) 0 Arrays.list_) = false /\
  Arrays.findIndex Arrays.gt10 Arrays.list_ = 1 /\
  Arrays.findIndex Arrays.gt100 Arrays.list_ = -1 /\
  Forall (fun x => to_boolean (Arrays.gt100 x 0 Arrays.list_) = false)
    Arrays.list_.
Proof.
  repeat split; try reflexivity.
  repeat constructor.
Qed.

(** C10.  [arr.flat()] removes one nesting level, for the array of the
    script and for every array, and [arr.flat(999)] flattens the array
    of the script completely. *)
Theorem flat_default_and_deep :
  Arrays.flat None Arrays.arr
    = [num 1; num 2; num 3; num 4; num 5;
       VArr [num 6; num 7; VArr [num 8; num 9; VArr [num 10]]]] /\
  Arrays.flat (Some 999) Arrays.arr
    = [num 1; num 2; num 3; num 4; num 5;
       num 6; num 7; num 8; num 9; num 10] /\
  (forall xs : list value,
     Arrays.flat None xs
       = flat_map (fun x => match x with VArr ys => ys | _ => [x] end) xs).
Proof.
  split; [| split].
  - reflexivity.
  - vm_compute. reflexivity.
  - intros xs. reflexivity.
Qed.

(** ** [class Client] *)

Section ClientFacts.

Import ClientClass.

Lemma getClientId_field (c : nat) (h : heap) (o : gmap string value)
    (cur : value) :
  h !! c = Some o -> o !! "clientId" = Some cur -> getClientId c h = cur.
Proof. intros Hc Ho. unfold getClientId. by rewrite Hc, Ho. Qed.

(** Whatever calls follow, an instance holds the value last written to
    it. *)
Lemma run_ops_field (ops : list op) :
  forall (h : heap) (c : nat) (o : gmap string value) (cur : value),
    h !! c = Some o -> o !! "clientId" = Some cur ->
    getClientId c (run_ops ops h) = last_written c ops cur.
Proof.
  induction ops as [|a ops IH]; intros h c o cur Hc Ho.
  - simpl. by eapply getClientId_field.
  - change (run_ops (a :: ops) h) with (run_ops ops (run_op a h)).
    destruct a as [| c' | c' v].
    + change (last_written c (New :: ops) cur) with (last_written c ops cur).
      apply (IH _ c o cur); [| exact Ho].
      unfold run_op, new_Client. cbn [snd].
      rewrite lookup_insert_ne; [exact Hc |].
      intros Heq. pose proof (is_fresh (dom h)) as Hf.
      rewrite Heq in Hf. apply Hf. apply elem_of_dom. by exists o.
    + change (last_written c (Get c' :: ops) cur) with (last_written c ops cur).
      by apply (IH _ c o cur).
    + change (last_written c (Change c' v :: ops) cur)
        with (last_written c ops (if decide (c' = c) then v else cur)).
      unfold run_op, changeClientId.
      destruct (decide (c' = c)) as [-> | Hne].
      * rewrite Hc. cbn [snd].
        apply (IH _ c (<["clientId" := v]> o) v); apply lookup_insert_eq.
      * destruct (h !! c') as [o' |] eqn:Hc'; cbn [snd].
        -- apply (IH _ c o cur); [| exact Ho]. by rewrite lookup_insert_ne.
        -- by apply (IH _ c o cur).
Qed.

(** C8.  A new [Client] answers ["124"]; [changeClientId(v)] returns [v];
    after it, and after any further calls on any instances,
    [getClientId] on the instance answers the value last written to it:
    [v] as long as the instance is only read, and "124" when nothing was
    ever written. *)
Theorem client_get_set_round_trip :
  (forall h : heap,
     getClientId (new_Client h).1 (new_Client h).2 = VStr "124") /\
  (forall (h : heap) (c : nat) (v : value), (changeClientId c v h).1 = v) /\
  (forall (h : heap) (v : value) (ops : list op),
     let c := (new_Client h).1 in
     getClientId c (run_ops (Change c v :: ops) (new_Client h).2)
       = last_written c ops v) /\
  (forall (h : heap) (v : value) (n : nat),
     let c := (new_Client h).1 in
     getClientId c
       (run_ops (Change c v :: repeat (Get c) n) (new_Client h).2) = v) /\
  (forall (h : heap) (ops : list op),
     let c := (new_Client h).1 in
     getClientId c (run_ops ops (new_Client h).2)
       = last_written c ops (VStr "124")).
Proof.
  assert (Hnew : forall h : heap,
            (new_Client h).2 !! (new_Client h).1
              = Some ({["clientId" := VStr "124"]} : gmap string value)).
  { intros h. unfold new_Client. simpl. apply lookup_insert_eq. }
  assert (Hchange : forall (h : heap) (v : value) (ops : list op),
            let c := (new_Client h).1 in
            getClientId c (run_ops (Change c v :: ops) (new_Client h).2)
              = last_written c ops v).
  { intros h v ops c.
    replace (last_written c ops v)
      with (last_written c (Change c v :: ops) (VStr "124")).
    - eapply run_ops_field; [apply Hnew | apply lookup_singleton_eq].
    - unfold last_written. simpl. by rewrite decide_True. }
  split; [| split; [| split; [| split]]].
  - intros h. eapply getClientId_field; [apply Hnew | apply lookup_singleton_eq].
  - intros h c v. unfold changeClientId. by destruct (h !! c).
  - exact Hchange.
  - intros h v n c. subst c. rewrite Hchange.
    induction n as [|n IH]; [reflexivity | exact IH].
  - intros h ops c.
    eapply run_ops_field; [apply Hnew | apply lookup_singleton_eq].
Qed.

End ClientFacts.

(** ** The promise [sub] *)

Section PromiseFacts.

Import Promises.

Lemma run_idle (n : nat) (l : loop) : idle l -> run n l = l.
Proof. intros H. destruct n; simpl; [reflexivity |]. by rewrite H. Qed.

Lemma run_script_3 (w : world) :
  run_script 3 w
    = Loop (World (globals w) (fun_proto w)
              (console w ++ top_level_lines
                 ++ [ConsoleLog [rejection]; ConsoleError [rejection]]))
           [Promise (Rejected rejection) [];
            Promise (Rejected rejection) [];
            Promise (Fulfilled VUndef) []]
           [] []
           [CalledReject sub rejection; RanHandler CatchLog rejection].
Proof.
  unfold run_script, top_level. simpl.
  unfold set_lw, console_log, console_error. simpl.
  rewrite <- !app_assoc. reflexivity.
Qed.

(** A truthy constant would take the other branch. *)
Lemma truthy_result_resolves (r : value) (w : world) :
  to_boolean r = true ->
  promises (run 3 (top_level r w)) !! sub
    = Some (Promise (Fulfilled (VStr "promise met succesfully")) []) /\
  trace (run 3 (top_level r w))
    = [CalledResolve sub (VStr "promise met succesfully");
       RanHandler ThenLog (VStr "promise met succesfully")].
Proof.
  intros H. unfold top_level. simpl. unfold fire. simpl. rewrite H.
  split; reflexivity.
Qed.

(** C4.  Whatever the console held before, [sub] is pending when the
    script's own run ends and is rejected with
    [Error("why't promise succesfull!")] once the timer has fired: the
    callback calls [reject] and never [resolve], the [then] handler
    never runs, the [catch] handler runs once on that error and logs it
    twice, and the loop is idle after three turns (more fuel changes
    nothing). *)
Theorem sub_always_rejects (w : world) (extra : nat) :
  promises (top_level result w) !! sub
    = Some (Promise Pending [Reaction (Some ThenLog) None 1]) /\
  promises (run_script (3 + extra) w) !! sub
    = Some (Promise (Rejected rejection) []) /\
  trace (run_script (3 + extra) w)
    = [CalledReject sub rejection; RanHandler CatchLog rejection] /\
  console (lw (run_script (3 + extra) w))
    = console w ++ top_level_lines
        ++ [ConsoleLog [rejection]; ConsoleError [rejection]] /\
  idle (run_script (3 + extra) w).
Proof.
  assert (Hrun : run_script (3 + extra) w = run_script 3 w).
  { unfold run_script. change (3 + extra)%nat with (S (S (S extra))).
    change (run (S (S (S extra))) (top_level result w))
      with (run extra (run 3 (top_level result w))).
    apply run_idle. fold (run_script 3 w). by rewrite run_script_3. }
  rewrite Hrun, run_script_3. repeat split; reflexivity.
Qed.

End PromiseFacts.

Section CallsFacts.

Variable user_body : nat -> value -> list value -> world -> result * world.

Lemma apply_fn_calls_bounded (n : nat) :
  forall f this args s, (depth f <= n)%nat ->
    exists inner,
      calls (apply_fn user_body f this args s).2
        = calls s ++ (f, this, args) :: inner /\
      Forall (fun ev => (depth (callee ev) < depth f)%nat) inner.
Proof.
  induction n as [|n IH]; intros f this args s Hd.
  - destruct f as [id | name | | obj bargs | g bt ba]; simpl in *.
    + destruct (user_body id this args (wld s)) as [r w]; simpl.
      exists []. split; [reflexivity | constructor].
    + destruct (decl_body name this args (wld s)) as [r w]; simpl.
      exists []. split; [reflexivity | constructor].
    + exists []. split; [reflexivity | constructor].
    + destruct obj; simpl in *; try (exists []; split; [reflexivity | constructor]).
      exfalso; lia.
    + exfalso; lia.
  - destruct f as [id | name | | obj bargs | g bt ba]; simpl in *.
    + destruct (user_body id this args (wld s)) as [r w]; simpl.
      exists []. split; [reflexivity | constructor].
    + destruct (decl_body name this args (wld s)) as [r w]; simpl.
      exists []. split; [reflexivity | constructor].
    + exists []. split; [reflexivity | constructor].
    + destruct obj as [| | | | | | | | | g]; simpl in *;
        try (exists []; split; [reflexivity | constructor]).
      match goal with
      | |- context [apply_fn user_body g ?t ?a ?s0] =>
          destruct (IH g t a s0 ltac:(lia)) as (inner & Hc & Hin);
          destruct (apply_fn user_body g t a s0) as [r s1]
      end.
      simpl in *. exists ((g, nth 0 bargs VUndef, []) :: inner). split.
      * rewrite Hc. simpl. by rewrite <- app_assoc.
      * constructor; [unfold callee; simpl; lia |].
        eapply Forall_impl; [exact Hin |]. simpl. intros; lia.
    + match goal with
      | |- context [apply_fn user_body g ?t ?a ?s0] =>
          destruct (IH g t a s0 ltac:(lia)) as (inner & Hc & Hin)
      end.
      exists ((g, bt, ba ++ args) :: inner). split.
      * rewrite Hc. simpl. by rewrite <- app_assoc.
      * constructor; [unfold callee; simpl; lia |].
        eapply Forall_impl; [exact Hin |]. simpl. intros; lia.
Qed.

(** Every call adds its own event first; the events that follow are
    calls of functions wrapped by the callee. *)
Lemma apply_fn_calls f this args s :
  exists inner,
    calls (apply_fn user_body f this args s).2
      = calls s ++ (f, this, args) :: inner /\
    Forall (fun ev => (depth (callee ev) < depth f)%nat) inner.
Proof. exact (apply_fn_calls_bounded (depth f) f this args s (le_n _)). Qed.

Lemma depth_lt_ne (f : fn) (evs : list call_event) :
  Forall (fun ev => (depth (callee ev) < depth f)%nat) evs ->
  Forall (fun ev => callee ev <> f) evs.
Proof.
  intros H. eapply Forall_impl; [exact H |].
  simpl. intros ev Hlt Heq. rewrite Heq in Hlt. lia.
Qed.

Lemma new_calls_app s evs s' :
  calls s' = calls s ++ evs -> new_calls s s' = evs.
Proof. intros H. unfold new_calls. rewrite H. by rewrite drop_app_length. Qed.

(** The events of one call of the closure [mybind] returns: the
    closure's own call, then the call [obj.call(args[0])], then
    whatever [obj] calls itself. *)
Lemma mybound_new_calls f bargs t cargs s :
  exists inner,
    new_calls s (apply_fn user_body (FMybound (VFun f) bargs) t cargs s).2
      = (FMybound (VFun f) bargs, t, cargs)
          :: (f, nth 0 bargs VUndef, []) :: inner /\
    Forall (fun ev => callee ev <> f) inner.
Proof.
  simpl.
  match goal with
  | |- context [apply_fn user_body f ?r ?a ?s0] =>
      destruct (apply_fn_calls f r a s0) as (inner & Hc & Hin);
      destruct (apply_fn user_body f r a s0) as [res s1]
  end.
  simpl in *. exists inner. split.
  - apply new_calls_app. rewrite Hc. by rewrite <- app_assoc.
  - by apply depth_lt_ne.
Qed.

Lemma mybound_ne f bargs : FMybound (VFun f) bargs <> f.
Proof. intros H. apply (f_equal depth) in H. simpl in H. lia. Qed.

Lemma nativebound_called_once f bthis bargs t cargs s :
  called_once f bthis (bargs ++ cargs)
    (new_calls s (apply_fn user_body (FNativeBound f bthis bargs) t cargs s).2).
Proof.
  simpl.
  match goal with
  | |- context [apply_fn user_body f ?r ?a ?s0] =>
      destruct (apply_fn_calls f r a s0) as (inner & Hc & Hin)
  end.
  simpl in Hc.
  exists [(FNativeBound f bthis bargs, t, cargs)], inner. split; [| split].
  - apply new_calls_app. rewrite Hc. by rewrite <- app_assoc.
  - constructor; [| constructor]. unfold callee; simpl.
    intros H. apply (f_equal depth) in H. simpl in H. lia.
  - by apply depth_lt_ne.
Qed.

Lemma mybound_called_once f bargs t cargs s :
  called_once f (nth 0 bargs VUndef) []
    (new_calls s (apply_fn user_body (FMybound (VFun f) bargs) t cargs s).2).
Proof.
  destruct (mybound_new_calls f bargs t cargs s) as (inner & Hn & Hin).
  exists [(FMybound (VFun f) bargs, t, cargs)], inner.
  split; [exact Hn | split; [| exact Hin]].
  constructor; [apply mybound_ne | constructor].
Qed.

(** C1.  For every function [f] and receiver [r], [f.mybind(r, ...extras)]
    returns a function [c]; every call of [c] (whatever its own [this]
    and arguments) calls [f] exactly once, and passes [r] as [this]:
    the call of [c] ends in the state in which that one call of [f]
    ends, and when [f] is a function [FUser id] or a declared function,
    its body runs once, on [this = r], from the world in which [c] has
    written the receiver. *)
Theorem mybind_calls_original_once_with_receiver
    (f : fn) (r : value) (extras : list value) (w : world) :
  exists c w',
    mybind (VFun f) (r :: extras) w = (Normal (VFun c), w') /\
    (forall t cargs s,
       exists a,
         called_once f r a (new_calls s (apply_fn user_body c t cargs s).2) /\
         (apply_fn user_body c t cargs s).2
           = (apply_fn user_body f r a
                (upd_world (console_log [r]) (record_call c t cargs s))).2) /\
    (forall id t cargs s,
       exists a,
         wld (apply_fn user_body
                (FMybound (VFun (FUser id)) (r :: extras)) t cargs s).2
           = (user_body id r a (console_log [r] (wld s))).2) /\
    (forall name t cargs s,
       exists a,
         wld (apply_fn user_body
                (FMybound (VFun (FDecl name)) (r :: extras)) t cargs s).2
           = (decl_body name r a (console_log [r] (wld s))).2).
Proof.
  eexists _, _. split; [reflexivity |]. split; [| split].
  - intros t cargs s. exists []. split.
    + exact (mybound_called_once f (r :: extras) t cargs s).
    + simpl. by destruct (apply_fn user_body f r [] _).
  - intros id t cargs s. exists []. simpl.
    by destruct (user_body id r [] _).
  - intros name t cargs s. exists []. simpl.
    by destruct (decl_body name r [] _).
Qed.

(** C2.  The function returned by [f.mybind(r, ...extras)] forwards no
    argument: whatever the bind-time extras and the call-time
    arguments, the one call of [f] has an empty argument list; when
    [f] is a function [FUser id], its body runs on [this = r] and the
    empty list. *)
Theorem mybind_forwards_no_arguments
    (f : fn) (r : value) (extras : list value) (w : world) :
  exists c w',
    mybind (VFun f) (r :: extras) w = (Normal (VFun c), w') /\
    (forall t cargs s,
       called_once f r [] (new_calls s (apply_fn user_body c t cargs s).2)) /\
    (forall id t cargs s,
       wld (apply_fn user_body
              (FMybound (VFun (FUser id)) (r :: extras)) t cargs s).2
         = (user_body id r [] (console_log [r] (wld s))).2).
Proof.
  eexists _, _. split; [reflexivity |]. split.
  - intros t cargs s. exact (mybound_called_once f (r :: extras) t cargs s).
  - intros id t cargs s. simpl.
    destruct (user_body id r [] _) as [res w1]. reflexivity.
Qed.

(** C5.  [mybind] has one path: for every [this] and every argument
    list, the empty one included, it returns the closure over [this]
    and the arguments, after assigning [params] and writing two console
    lines; it never throws, called directly or as the method installed
    on [Function.prototype].  With no argument at all the closure's
    receiver [args[0]] is [undefined]: the returned function calls [f]
    with [this = undefined]. *)
Theorem mybind_single_path_never_throws (this : value) (args : list value)
    (w : world) :
  mybind this args w
    = (Normal (VFun (FMybound (sloppy_this this) args)),
       World (<["params" := VArr (drop 1 args)]> (globals w))
             (fun_proto w)
             (console w ++ [ConsoleLog [VArr (drop 1 args)]]
                        ++ [ConsoleLog [VStr "object"]])) /\
  (forall e w', mybind this args w <> (Throw e, w')) /\
  (forall s,
     (apply_fn user_body FMybind this args s).1
       = Normal (VFun (FMybound (sloppy_this this) args))) /\
  (forall f t cargs s,
     (mybind (VFun f) [] w).1 = Normal (VFun (FMybound (VFun f) [])) /\
     called_once f VUndef []
       (new_calls s (apply_fn user_body (FMybound (VFun f) []) t cargs s).2)).
Proof.
  split; [| split; [| split]].
  - unfold mybind, console_log, set_global. simpl. by rewrite <- app_assoc.
  - intros e w' H. discriminate H.
  - intros s. reflexivity.
  - intros f t cargs s. split; [reflexivity |].
    exact (mybound_called_once f [] t cargs s).
Qed.

Lemma bind_then_call_mybind f bargs t cargs s :
  bind_then_call user_body mybind f bargs t cargs s
    = apply_fn user_body (FMybound (VFun f) bargs) t cargs
        (State (mybind (VFun f) bargs (wld s)).2 (calls s)).
Proof. reflexivity. Qed.

Lemma bind_then_call_native f bargs t cargs s :
  bind_then_call user_body native_bind f bargs t cargs s
    = apply_fn user_body
        (FNativeBound f (nth 0 bargs VUndef) (drop 1 bargs)) t cargs s.
Proof. destruct s; reflexivity. Qed.

(** C3, amended.  [mybind] re-implements the receiver binding of
    [Function.prototype.bind] and adds diagnostic output: invoking the
    function returned by [f.mybind(r, ...extras)] and invoking the one
    returned by the native [f.bind(r, ...extras)] each call [f] exactly
    once with [this = r]; the native bind has no effect of its own,
    while [mybind] writes [params] and [typeof params] to the console
    when it binds, and its function writes the receiver before it calls
    [f]: a function [FUser id] starts from the world as the native bind
    left it, or as [mybind] and that line left it. *)
Theorem mybind_binds_receiver_like_bind
    (f : fn) (r : value) (extras : list value) (t : value)
    (cargs : list value) (s : state) :
  (exists a, called_once f r a
     (new_calls s (bind_then_call user_body mybind f (r :: extras) t cargs s).2)) /\
  (exists a, called_once f r a
     (new_calls s (bind_then_call user_body native_bind f (r :: extras) t cargs s).2)) /\
  (native_bind (VFun f) (r :: extras) (wld s)).2 = wld s /\
  console (mybind (VFun f) (r :: extras) (wld s)).2
    = console (wld s) ++ [ConsoleLog [VArr extras]; ConsoleLog [VStr "object"]] /\
  (forall id, exists a,
     wld (bind_then_call user_body native_bind (FUser id)
            (r :: extras) t cargs s).2
       = (user_body id r a (wld s)).2) /\
  (forall id, exists a,
     wld (bind_then_call user_body mybind (FUser id)
            (r :: extras) t cargs s).2
       = (user_body id r a
            (console_log [r]
               (mybind (VFun (FUser id)) (r :: extras) (wld s)).2)).2).
Proof.
  split; [| split; [| split; [| split; [| split]]]].
  - exists []. rewrite bind_then_call_mybind.
    exact (mybound_called_once f (r :: extras) t cargs
             (State (mybind (VFun f) (r :: extras) (wld s)).2 (calls s))).
  - exists (extras ++ cargs). rewrite bind_then_call_native.
    exact (nativebound_called_once f r extras t cargs s).
  - reflexivity.
  - simpl. by rewrite <- app_assoc.
  - intros id. exists (extras ++ cargs). rewrite bind_then_call_native. simpl.
    change (drop 0 extras) with extras.
    by destruct (user_body id r (extras ++ cargs) (wld s)).
  - intros id. exists []. rewrite bind_then_call_mybind. simpl.
    by destruct (user_body id r [] _).
Qed.

End CallsFacts.

(** C3 as stated fails on the script's own [printName] and [name1]:
    [printName.mybind(name1)()] against [printName.bind(name1)()] (line
    15).  Both call [printName] on [name1] without arguments, but the
    console shows three more lines with [mybind]. *)
Lemma mybind_not_equivalent_to_bind :
  bind_observation (State w0 [])
    (bind_then_call no_user mybind (FDecl "printName")
       [name1] VUndef [] (State w0 []))
  <> bind_observation (State w0 [])
       (bind_then_call no_user native_bind (FDecl "printName")
          [name1] VUndef [] (State w0 [])).
Proof.
  intros H. apply (f_equal (fun o => length o.1.2)) in H.
  vm_compute in H. discriminate H.
Qed.

(** ** Whole scripts *)

Section ScriptFacts.

Variable user_body : nat -> value -> list value -> world -> result * world.

Lemma script_js_effect (s : state) :
  (script_js user_body s).1 = Normal VUndef /\
  wld (script_js user_body s).2 = apply_writes script_js_writes (wld s).
Proof.
  unfold script_js, seq, log, effect, lift, read, call. simpl.
  rewrite lookup_insert_eq. simpl. split; reflexivity.
Qed.

Lemma this_keyword_js_effect (s : state) :
  (this_keyword_js user_body s).1 = Normal VUndef /\
  wld (this_keyword_js user_body s).2
    = apply_writes this_keyword_js_writes (wld s).
Proof.
  unfold this_keyword_js, seq, log, effect, lift, lift_new, read, call,
    ClientClass.sayWelcome, ClientClass.getClientId, ClientClass.new_Client.
  simpl. unfold objItself, innerFunction. simpl.
  rewrite !lookup_insert_eq. simpl.
  rewrite lookup_singleton_eq. simpl. split; reflexivity.
Qed.

Lemma async_promise_js_effect (s : state) :
  (async_promise_js s).1 = Normal VUndef /\
  wld (async_promise_js s).2 = apply_writes async_promise_js_writes (wld s).
Proof. split; reflexivity. Qed.

Lemma array_js_effect (s : state) :
  (array_js s).1 = Normal VUndef /\
  wld (array_js s).2 = apply_writes array_js_writes (wld s).
Proof. split; reflexivity. Qed.

Lemma date_js_effect (s : state) :
  (date_js s).1 = Normal VUndef /\
  wld (date_js s).2 = apply_writes date_js_writes (wld s).
Proof. split; reflexivity. Qed.

Lemma console_apply_writes (us : list write) :
  forall w, console (apply_writes us w) = console w ++ prints us.
Proof.
  induction us as [|u us IH]; intros w; simpl.
  - by rewrite app_nil_r.
  - unfold apply_writes in *. simpl. rewrite IH.
    destruct u; simpl; [reflexivity | reflexivity |].
    by rewrite <- app_assoc.
Qed.

(** A script that does not depend on the state prints the same lines
    and ends the same way after any other script. *)
Lemma independent_after (f g : stmt) :
  state_independent f ->
  forall s,
    (f (g s).2).1 = (f s).1 /\
    new_console (wld (g s).2) (wld (f (g s).2).2)
      = new_console (wld s) (wld (f s).2).
Proof.
  intros (r & us & H) s.
  destruct (H s) as [Hr Hw]. destruct (H (g s).2) as [Hr' Hw'].
  split; [congruence |].
  unfold new_console. rewrite Hw, Hw', !console_apply_writes.
  by rewrite !drop_app_length.
Qed.

Lemma files_state_independent :
  Forall (fun f => state_independent (body f)) (files user_body).
Proof.
  repeat constructor; simpl.
  - exists (Normal VUndef), script_js_writes. apply script_js_effect.
  - exists (Normal VUndef), async_promise_js_writes. apply async_promise_js_effect.
  - exists (Normal VUndef), this_keyword_js_writes. apply this_keyword_js_effect.
  - exists (Normal VUndef), array_js_writes. apply array_js_effect.
  - exists (Normal VUndef), date_js_writes. apply date_js_effect.
Qed.

(** C6, amended.  Two snippets change global state, both on purpose:
    script.js installs [mybind] on [Function.prototype], and the
    [this]-keyword snippet sets the property [name] of the global object
    to ["sarah"] (next to [Person], which it declares).  Every other
    property of [Function.prototype] and, the variable [params] of
    [mybind] left aside, every other global is as it was after any
    source file has run. *)
Theorem scripts_global_writes (s : state) :
  fun_proto (wld (script_js user_body s).2)
    = <["mybind" := VFun FMybind]> (fun_proto (wld s)) /\
  delete "params" (globals (wld (script_js user_body s).2))
    = delete "params" (globals (wld s)) /\
  globals (wld (this_keyword_js user_body s).2)
    = <["name" := VStr "sarah"]>
        (<["Person" := VFun (FDecl "Person")]> (globals (wld s))) /\
  fun_proto (wld (this_keyword_js user_body s).2) = fun_proto (wld s) /\
  Forall (fun f => globals (wld (body f s).2) = globals (wld s) /\
                   fun_proto (wld (body f s).2) = fun_proto (wld s))
    [promise_file; array_file; date_file].
Proof.
  destruct (script_js_effect s) as [_ Hs].
  destruct (this_keyword_js_effect s) as [_ Ht].
  rewrite Hs, Ht. repeat split.
  - simpl. apply delete_insert_eq.
  - repeat constructor.
Qed.

Lemma load_clear (f : source_file) (r : realm) :
  clash f r = false ->
  (load f r).1 = (body f (rstate r)).1 /\
  rstate (load f r).2 = (body f (rstate r)).2 /\
  lex_declared (load f r).2 = lex_declared r ++ lexical_names f /\
  var_declared (load f r).2 = var_declared r ++ var_names f.
Proof. intros H. unfold load. rewrite H. repeat split. Qed.

Lemma load_fresh (f : source_file) (s : state) :
  (load f (fresh_realm s)).1 = (body f s).1 /\
  rstate (load f (fresh_realm s)).2 = (body f s).2 /\
  lex_declared (load f (fresh_realm s)).2 = lexical_names f /\
  var_declared (load f (fresh_realm s)).2 = var_names f.
Proof.
  apply (load_clear f (fresh_realm s)).
  unfold clash, fresh_realm. simpl.
  induction (lexical_names f) as [|n l IH]; simpl.
  - by induction (var_names f).
  - exact IH.
Qed.

(** A script whose names are all new runs after another script as it
    runs alone, when it does not depend on the state. *)
Lemma load_after (f g : source_file) (s : state) :
  state_independent (body f) ->
  clash f (load g (fresh_realm s)).2 = false ->
  (load f (load g (fresh_realm s)).2).1 = (load f (fresh_realm s)).1 /\
  new_console (wld (rstate (load g (fresh_realm s)).2))
              (wld (rstate (load f (load g (fresh_realm s)).2).2))
    = new_console (wld s) (wld (rstate (load f (fresh_realm s)).2)).
Proof.
  intros Hf Hc.
  destruct (load_clear f _ Hc) as (-> & -> & _).
  destruct (load_fresh f s) as (-> & -> & _).
  destruct (load_fresh g s) as (_ & -> & _).
  exact (independent_after (body f) (body g) Hf s).
Qed.

(** The names a loaded script has declared do not depend on how it
    ran. *)
Lemma clash_after_fresh (f g : source_file) (s : state) :
  clash f (load g (fresh_realm s)).2
    = clash f (Realm s (lexical_names g) (var_names g)).
Proof.
  unfold clash. destruct (load_fresh g s) as (_ & _ & -> & ->). reflexivity.
Qed.

(** C7.  Every source file acts on the realm by a fixed list of writes
    and ends normally, whatever state it starts from.  So, loaded into
    a realm after any other source file, a file returns the same result
    and prints the same lines as when it is loaded alone: the files
    declare different names and none reads what another wrote.  (Only a
    file loaded after itself is rejected, with a [SyntaxError] and no
    effect, because its names are declared already.)  A value handed to
    the console counts as the value, the global object as a
    reference. *)
Theorem source_files_independent :
  Forall (fun f => state_independent (body f)) (files user_body) /\
  Forall (fun f =>
            Forall (fun g =>
                      forall s,
                        let after_g := (load g (fresh_realm s)).2 in
                        if String.eqb (path f) (path g)
                        then load f after_g = (Throw redeclared, after_g)
                        else
                          (load f after_g).1 = (load f (fresh_realm s)).1 /\
                          new_console (wld (rstate after_g))
                                      (wld (rstate (load f after_g).2))
                            = new_console (wld s)
                                (wld (rstate (load f (fresh_realm s)).2)))
              (files user_body))
    (files user_body).
Proof.
  split; [exact files_state_independent |].
  pose proof files_state_independent as Hind.
  unfold files in *.
  repeat match goal with
         | H : Forall _ (_ :: _) |- _ => apply Forall_cons in H as [? H]
         end.
  repeat match goal with |- Forall _ _ => constructor end.
  all: intros s; cbv zeta.
  all: cbn [path script_file promise_file this_keyword_file array_file date_file].
  all: match goal with
       | |- context [String.eqb ?a ?b] =>
           let e := eval vm_compute in (String.eqb a b) in
           change (String.eqb a b) with e; cbv iota
       end.
  all: first
         [ unfold load at 1; rewrite clash_after_fresh; reflexivity
         | apply load_after;
           [assumption | rewrite clash_after_fresh; reflexivity] ].
Qed.

End ScriptFacts.

(** C6 as stated fails on the [this]-keyword snippet: its top-level
    [this.name = "sarah"] changes [window.name], which it does not
    declare. *)
Lemma top_level_this_changes_global_name :
  ~ leaves_global_alone (this_keyword_file no_user)
      (State browser_realm []) "name".
Proof.
  intros H.
  assert (Hnot : "name" ∉ declares (this_keyword_file no_user)).
  { simpl. intros Hin. repeat (apply elem_of_cons in Hin as [Heq | Hin];
      [discriminate Heq |]). by apply elem_of_nil in Hin. }
  specialize (H Hnot). simpl in H.
  destruct (this_keyword_js_effect no_user (State browser_realm [])) as [_ Hw].
  rewrite Hw in H. simpl in H. rewrite lookup_insert_eq in H.
  unfold browser_realm in H. simpl in H.
  rewrite lookup_singleton_eq in H. discriminate H.
Qed.

(** * Further properties of the scripts *)

(** ** [printName] and the two binds *)






Section BindFacts.

Variable user_body : nat -> value -> list value -> world -> result * world.

(** X2.  The function [mybind] returns never hands back what the bound
    function returned: a call of it that ends normally yields
    [undefined], and an exception of the bound function passes through;
    for a function [FUser id] the outcome is the body's outcome with
    its value replaced by [undefined], where the native bound function
    hands back the body's outcome as it is. *)
Theorem mybound_drops_the_result
    (f : fn) (bargs : list value) (t : value) (cargs : list value)
    (s : state) :
  match (apply_fn user_body (FMybound (VFun f) bargs) t cargs s).1 with
  | Normal v => v = VUndef
  | Throw _ => True
  end /\
  (forall id,
     (apply_fn user_body (FMybound (VFun (FUser id)) bargs) t cargs s).1
       = match (user_body id (nth 0 bargs VUndef) []
                  (console_log [nth 0 bargs VUndef] (wld s))).1 with
         | Normal _ => Normal VUndef
         | Throw e => Throw e
         end) /\
  (forall id bthis,
     (apply_fn user_body (FNativeBound (FUser id) bthis bargs) t cargs s).1
       = (user_body id bthis (bargs ++ cargs) (wld s)).1).
Proof.
  split; [| split].
  - simpl.
    match goal with
    | |- context [apply_fn user_body ?g ?r ?a ?s0] =>
        destruct (apply_fn user_body g r a s0) as [[x | e] s1]
    end; simpl; [reflexivity | exact I].
  - intros id. simpl. by destruct (user_body id _ [] _).
  - intros id bthis. simpl. by destruct (user_body id bthis _ _).
Qed.

(** X3.  When [mybind] was called on a value that is no function and
    has no [call] that can be called (a number, say), the function it
    returned writes the receiver to the console and then throws a
    [TypeError]; it calls nothing. *)
Theorem mybound_without_call_throws
    (obj : value) (bargs : list value) (t : value) (cargs : list value)
    (s : state) :
  lacks_call (wld s) obj = true ->
  apply_fn user_body (FMybound obj bargs) t cargs s
    = (Throw (VErr "TypeError: obj.call is not a function"),
       State (console_log [nth 0 bargs VUndef] (wld s))
             (calls s ++ [(FMybound obj bargs, t, cargs)])).
Proof.
  intros H. destruct obj; try reflexivity; discriminate H.
Qed.

(** X4.  Binding a bound function again does not change the receiver:
    [f.mybind(r1, ...).mybind(r2, ...)] returns a function that calls
    [f] exactly once with [this = r1], as the native
    [f.bind(r1, ...).bind(r2, ...)] does (which also passes on the
    arguments of both binds and of the call, in that order).  A
    function [FUser id] bound twice runs its body once on [this = r1]:
    after the two receivers were written, with [mybind]; on the
    untouched world, and handing back its outcome, with [bind]. *)
Theorem bind_twice_first_receiver_wins
    (f : fn) (r1 r2 : value) (e1 e2 : list value) (t : value)
    (cargs : list value) (w : world) (s : state) :
  (mybind (VFun (FMybound (VFun f) (r1 :: e1))) (r2 :: e2)
          (mybind (VFun f) (r1 :: e1) w).2).1
    = Normal (VFun (FMybound (VFun (FMybound (VFun f) (r1 :: e1))) (r2 :: e2))) /\
  called_once f r1 []
    (new_calls s
       (apply_fn user_body
          (FMybound (VFun (FMybound (VFun f) (r1 :: e1))) (r2 :: e2))
          t cargs s).2) /\
  called_once f r1 (e1 ++ e2 ++ cargs)
    (new_calls s
       (apply_fn user_body
          (FNativeBound (FNativeBound f r1 e1) r2 e2) t cargs s).2) /\
  (forall id,
     wld (apply_fn user_body
            (FMybound (VFun (FMybound (VFun (FUser id)) (r1 :: e1))) (r2 :: e2))
            t cargs s).2
       = (user_body id r1 []
            (console_log [r1] (console_log [r2] (wld s)))).2) /\
  (forall id,
     (apply_fn user_body
        (FNativeBound (FNativeBound (FUser id) r1 e1) r2 e2) t cargs s).1
       = (user_body id r1 (e1 ++ e2 ++ cargs) (wld s)).1 /\
     wld (apply_fn user_body
            (FNativeBound (FNativeBound (FUser id) r1 e1) r2 e2) t cargs s).2
       = (user_body id r1 (e1 ++ e2 ++ cargs) (wld s)).2).
Proof.
  split; [reflexivity | split; [| split; [| split]]];
    [ | | intros id; simpl; by destruct (user_body id r1 [] _)
        | intros id; simpl; rewrite <- app_assoc;
          by destruct (user_body id r1 _ _) ].
  - simpl.
    match goal with
    | |- context [apply_fn user_body f ?r ?a ?s0] =>
        destruct (apply_fn_calls user_body f r a s0) as (inner & Hc & Hin);
        destruct (apply_fn user_body f r a s0) as [res s1]
    end.
    simpl in *.
    exists [(FMybound (VFun (FMybound (VFun f) (r1 :: e1))) (r2 :: e2), t, cargs);
            (FMybound (VFun f) (r1 :: e1), r2, [])], inner.
    split; [| split].
    + apply new_calls_app. rewrite Hc. by rewrite <- !app_assoc.
    + repeat constructor; unfold callee; simpl;
        intros H; apply (f_equal depth) in H; simpl in H; lia.
    + by apply depth_lt_ne.
  - simpl.
    match goal with
    | |- context [apply_fn user_body f ?r ?a ?s0] =>
        destruct (apply_fn_calls user_body f r a s0) as (inner & Hc & Hin)
    end.
    simpl in Hc. rewrite <- app_assoc in Hc.
    exists [(FNativeBound (FNativeBound f r1 e1) r2 e2, t, cargs);
            (FNativeBound f r1 e1, r2, e2 ++ cargs)], inner.
    split; [| split].
    + apply new_calls_app. rewrite Hc. by rewrite <- !app_assoc.
    + repeat constructor; unfold callee; simpl;
        intros H; apply (f_equal depth) in H; simpl in H; lia.
    + by apply depth_lt_ne.
Qed.

(** X5.  Every call of [mybind] assigns the global [params] to the
    arguments after the first, so of two binds the later one decides
    what [params] holds; no other global and nothing on
    [Function.prototype] is touched. *)
Theorem mybind_assigns_only_params
    (t1 t2 : value) (a1 a2 : list value) (w : world) :
  globals (mybind t1 a1 w).2 !! "params" = Some (VArr (drop 1 a1)) /\
  delete "params" (globals (mybind t1 a1 w).2) = delete "params" (globals w) /\
  fun_proto (mybind t1 a1 w).2 = fun_proto w /\
  globals (mybind t2 a2 (mybind t1 a1 w).2).2 = globals (mybind t2 a2 w).2.
Proof.
  simpl. repeat split.
  - apply lookup_insert_eq.
  - apply delete_insert_eq.
  - apply insert_insert_eq.
Qed.


(** X7.  The arrow function [greet] cannot be rebound: called directly
    on any receiver, through [mybind] or through the native [bind], it
    writes the global object, never the receiver it was given. *)
Theorem greet_ignores_bound_receiver
    (r : value) (extras : list value) (t : value) (cargs : list value)
    (s : state) :
  console (wld (apply_fn user_body (FDecl "greet") r cargs s).2)
    = console (wld s) ++ [ConsoleLog [VGlobal]] /\
  console (wld (bind_then_call user_body native_bind (FDecl "greet")
                  (r :: extras) t cargs s).2)
    = console (wld s) ++ [ConsoleLog [VGlobal]] /\
  console (wld (bind_then_call user_body mybind (FDecl "greet")
                  (r :: extras) t cargs s).2)
    = console (wld s)
        ++ [ConsoleLog [VArr extras]; ConsoleLog [VStr "object"];
            ConsoleLog [r]; ConsoleLog [VGlobal]].
Proof.
  split; [reflexivity | split; [reflexivity |]].
  simpl. by rewrite <- !app_assoc.
Qed.

End BindFacts.

(** A bound function that returns 42: called directly and through the
    native [bind] the caller gets 42, through [mybind] [undefined]. *)
Lemma mybound_drops_42 :
  (apply_fn returns_42 (FUser 0) name1 [] (State w0 [])).1 = Normal (num 42) /\
  (apply_fn returns_42 (FNativeBound (FUser 0) name1 []) VUndef []
     (State w0 [])).1 = Normal (num 42) /\
  (apply_fn returns_42 (FMybound (VFun (FUser 0)) [name1]) VUndef []
     (State w0 [])).1 = Normal VUndef.
Proof. repeat split. Qed.

(** [Function.prototype.mybind.call(5, name1)()] *)
Lemma mybound_without_call_throws_witness :
  lacks_call w0 (num 5) = true /\
  apply_fn no_user (FMybound (num 5) [name1]) VUndef [] (State w0 [])
    = (Throw (VErr "TypeError: obj.call is not a function"),
       State (console_log [name1] w0)
             ([] ++ [(FMybound (num 5) [name1], VUndef, [])])).
Proof.
  split; [reflexivity |].
  apply (mybound_without_call_throws no_user (num 5) [name1] VUndef []
           (State w0 [])).
  reflexivity.
Defined.


(** ** The [this]-keyword snippet *)

(** X8.  [new Person(p)] returns a new object whose [name] is [p] and
    leaves the globals alone, while the same function called with a
    string, without [new] and without a receiver, returns nothing and
    sets the global [name] to that string. *)
Theorem Person_new_versus_plain_call
    (user_body : nat -> value -> list value -> world -> result * world)
    (p : value) (n : string) (args : list value) (w : world) (s : state) :
  new_Person p w
    = (VObj [("name", p)], console_log [VObj [("name", p)]] w) /\
  get_prop w (new_Person p w).1 "name" = Normal p /\
  globals (new_Person p w).2 = globals w /\
  apply_fn user_body (FDecl "Person") VUndef (VStr n :: args) s
    = (Normal VUndef,
       State (console_log [VGlobal] (set_global "name" (VStr n) (wld s)))
             (calls s ++ [(FDecl "Person", VUndef, VStr n :: args)])).
Proof. repeat split. Qed.

(** X9.  Inside [objItself] the receiver is the object the method was
    called on, but inside [innerFunction] it is the global object, and
    [name] there is the global [name], not the receiver's: the method
    writes the receiver, the receiver's own [name], the global object
    and the global [name]; when the global object has no [name], the
    last step throws a [ReferenceError] instead. *)
Theorem objItself_inner_this_is_global
    (props : list (string * value)) (w : world) :
  objItself (VObj props) w
    = let w3 :=
        console_log [VGlobal]
          (console_log [VStr objItself_label; assoc "name" props]
             (console_log [VStr objItself_label; VObj props] w)) in
      match globals w !! "name" with
      | Some g => (Normal VUndef, console_log [g] w3)
      | None => (Throw (VErr "ReferenceError: name is not defined"), w3)
      end.
Proof.
  unfold objItself, innerFunction. simpl.
  destruct (globals w !! "name"); reflexivity.
Qed.

(** ** [class Client] *)

Section ClientMore.

Import ClientClass.

Lemma new_Client_fresh (h : heap) : h !! (new_Client h).1 = None.
Proof.
  unfold new_Client. simpl. apply not_elem_of_dom. apply is_fresh.
Qed.

Lemma new_Client_lookup (h : heap) :
  (new_Client h).2 !! (new_Client h).1
    = Some ({["clientId" := VStr "124"]} : gmap string value).
Proof. unfold new_Client. cbn [fst snd]. apply lookup_insert_eq. Qed.

Lemma new_Client_lookup_ne (h : heap) (c : nat) :
  (new_Client h).1 <> c -> (new_Client h).2 !! c = h !! c.
Proof. intros H. unfold new_Client in *. cbn [fst snd] in *. by apply lookup_insert_ne. Qed.

(** X10.  Two instances do not share their field: writing [clientId] on
    one of two new instances changes what that one answers and leaves
    the other at "124". *)
Theorem client_instances_independent (h : heap) (v : value) :
  let c1 := (new_Client h).1 in
  let h1 := (new_Client h).2 in
  let c2 := (new_Client h1).1 in
  let h2 := (new_Client h1).2 in
  c1 <> c2 /\
  getClientId c2 (changeClientId c2 v h2).2 = v /\
  getClientId c1 (changeClientId c2 v h2).2 = VStr "124" /\
  getClientId c2 (changeClientId c1 v h2).2 = VStr "124".
Proof.
  intros c1 h1 c2 h2.
  assert (H1 : h1 !! c1 = Some ({["clientId" := VStr "124"]} : gmap string value)).
  { apply new_Client_lookup. }
  assert (Hne : c2 <> c1).
  { intros Heq. pose proof (new_Client_fresh h1) as Hf. fold c2 in Hf.
    rewrite Heq, H1 in Hf. discriminate Hf. }
  assert (H21 : h2 !! c1 = Some ({["clientId" := VStr "124"]} : gmap string value)).
  { subst h2. rewrite new_Client_lookup_ne; [exact H1 | exact Hne]. }
  assert (H22 : h2 !! c2 = Some ({["clientId" := VStr "124"]} : gmap string value)).
  { apply new_Client_lookup. }
  split; [congruence |]. unfold changeClientId. rewrite H21, H22. cbn [snd].
  split; [| split].
  - eapply getClientId_field; apply lookup_insert_eq.
  - eapply getClientId_field;
      [rewrite lookup_insert_ne; [exact H21 | exact Hne]
      | apply lookup_singleton_eq].
  - eapply getClientId_field;
      [rewrite lookup_insert_ne; [exact H22 | congruence]
      | apply lookup_singleton_eq].
Qed.

(** X11.  [sayWelcome] returns nothing, so logging its result logs
    [undefined]; what it writes itself is one line: when the value last
    written to the instance is a string (as "124" is, if nothing was
    written), the line is ["welcome "] followed by that string,
    whatever calls came before. *)
Theorem sayWelcome_logs_current_id
    (h : heap) (ops : list op) (w : world) (id : string) :
  last_written (new_Client h).1 ops (VStr "124") = VStr id ->
  sayWelcome (new_Client h).1 (run_ops ops (new_Client h).2) w
    = (VUndef, console_log [VStr ("welcome " +:+ id)] w).
Proof.
  intros H. unfold sayWelcome.
  rewrite (run_ops_field ops (new_Client h).2 (new_Client h).1
             {["clientId" := VStr "124"]} (VStr "124")
             (new_Client_lookup h) (lookup_singleton_eq _ _)).
  by rewrite H.
Qed.

End ClientMore.

(** [c.changeClientId("7"); c.getClientId(); c.sayWelcome()] *)
Lemma sayWelcome_logs_current_id_witness :
  ClientClass.last_written (ClientClass.new_Client ∅).1
    [ClientClass.Change (ClientClass.new_Client ∅).1 (VStr "7");
     ClientClass.Get (ClientClass.new_Client ∅).1] (VStr "124") = VStr "7" /\
  ClientClass.sayWelcome (ClientClass.new_Client ∅).1
    (ClientClass.run_ops
       [ClientClass.Change (ClientClass.new_Client ∅).1 (VStr "7");
        ClientClass.Get (ClientClass.new_Client ∅).1]
       (ClientClass.new_Client ∅).2) w0
    = (VUndef, console_log [VStr ("welcome " +:+ "7")] w0).
Proof.
  split; [vm_compute; reflexivity |].
  apply (sayWelcome_logs_current_id ∅ _ w0 "7"). vm_compute. reflexivity.
Defined.

(** ** The promise script with another constant *)

Section PromiseMore.

Import Promises.

Lemma run_add (a b : nat) : forall l, run (a + b) l = run b (run a l).
Proof.
  induction a as [|a IH]; intros l; simpl; [reflexivity |].
  destruct (step l) as [l' |] eqn:Hs; [apply IH |].
  symmetry. by apply run_idle.
Qed.

Lemma run_3_truthy (r : value) (w : world) :
  to_boolean r = true ->
  run 3 (top_level r w)
    = Loop (World (globals w) (fun_proto w)
              (console w ++ top_level_lines
                 ++ [ConsoleLog [VStr "promise met succesfully"]]))
           [Promise (Fulfilled (VStr "promise met succesfully")) [];
            Promise (Fulfilled VUndef) [];
            Promise (Fulfilled VUndef) []]
           [] []
           [CalledResolve sub (VStr "promise met succesfully");
            RanHandler ThenLog (VStr "promise met succesfully")].
Proof.
  intros H. unfold top_level. simpl. unfold fire. simpl. rewrite H. simpl.
  unfold set_lw, console_log. simpl. rewrite <- !app_assoc. reflexivity.
Qed.

Lemma run_3_falsy (r : value) (w : world) :
  to_boolean r = false ->
  run 3 (top_level r w)
    = Loop (World (globals w) (fun_proto w)
              (console w ++ top_level_lines
                 ++ [ConsoleLog [rejection]; ConsoleError [rejection]]))
           [Promise (Rejected rejection) [];
            Promise (Rejected rejection) [];
            Promise (Fulfilled VUndef) []]
           [] []
           [CalledReject sub rejection; RanHandler CatchLog rejection].
Proof.
  intros H. unfold top_level. simpl. unfold fire. simpl. rewrite H. simpl.
  unfold set_lw, console_log, console_error. simpl.
  rewrite <- !app_assoc. reflexivity.
Qed.

(** X12.  The callback's branch is decided by the truthiness of
    [result] alone: with any truthy value in place of 0 the promise is
    fulfilled with ["promise met succesfully"], the [then] handler
    writes that string once, the [catch] handler never runs, and the
    loop is idle after three turns. *)
Theorem truthy_result_takes_resolve_branch
    (r : value) (w : world) (extra : nat) :
  to_boolean r = true ->
  promises (run (3 + extra) (top_level r w)) !! sub
    = Some (Promise (Fulfilled (VStr "promise met succesfully")) []) /\
  trace (run (3 + extra) (top_level r w))
    = [CalledResolve sub (VStr "promise met succesfully");
       RanHandler ThenLog (VStr "promise met succesfully")] /\
  console (lw (run (3 + extra) (top_level r w)))
    = console w ++ top_level_lines
        ++ [ConsoleLog [VStr "promise met succesfully"]] /\
  idle (run (3 + extra) (top_level r w)).
Proof.
  intros H. rewrite run_add, (run_3_truthy r w H).
  rewrite run_idle by reflexivity. repeat split.
Qed.

(** X13.  Neither handler runs while the script itself runs: whatever
    the constant is, the script ends with the promise pending, no
    handler called, and its seven lines written; and however long the
    loop then runs, those seven lines stay first on the console,
    ["end Promises code"] before anything a handler writes. *)
Theorem script_lines_come_first (r : value) (w : world) (n : nat) :
  promises (top_level r w) !! sub
    = Some (Promise Pending [Reaction (Some ThenLog) None 1]) /\
  trace (top_level r w) = [] /\
  console (lw (top_level r w)) = console w ++ top_level_lines /\
  exists rest,
    console (lw (run n (top_level r w)))
      = console w ++ top_level_lines ++ rest.
Proof.
  split; [reflexivity | split; [reflexivity | split]].
  - unfold top_level, set_lw, console_log. simpl.
    rewrite <- !app_assoc. reflexivity.
  - destruct (to_boolean r) eqn:Hr.
    + destruct n as [|[|[|n]]].
      * exists []. unfold top_level, set_lw, console_log. simpl.
        rewrite <- !app_assoc. reflexivity.
      * exists []. unfold top_level. simpl. unfold fire. simpl. rewrite Hr.
        unfold set_lw, console_log. simpl. rewrite <- !app_assoc. reflexivity.
      * exists [ConsoleLog [VStr "promise met succesfully"]].
        unfold top_level. simpl. unfold fire. simpl. rewrite Hr.
        unfold set_lw, console_log. simpl. rewrite <- !app_assoc. reflexivity.
      * exists [ConsoleLog [VStr "promise met succesfully"]].
        change (S (S (S n))) with (3 + n)%nat.
        rewrite run_add, (run_3_truthy r w Hr).
        by rewrite run_idle by reflexivity.
    + destruct n as [|[|[|n]]].
      * exists []. unfold top_level, set_lw, console_log. simpl.
        rewrite <- !app_assoc. reflexivity.
      * exists []. unfold top_level. simpl. unfold fire. simpl. rewrite Hr.
        unfold set_lw, console_log. simpl. rewrite <- !app_assoc. reflexivity.
      * exists []. unfold top_level. simpl. unfold fire. simpl. rewrite Hr.
        unfold set_lw, console_log. simpl. rewrite <- !app_assoc. reflexivity.
      * exists [ConsoleLog [rejection]; ConsoleError [rejection]].
        change (S (S (S n))) with (3 + n)%nat.
        rewrite run_add, (run_3_falsy r w Hr).
        by rewrite run_idle by reflexivity.
Qed.

End PromiseMore.

(** [const result = 1] *)
Lemma truthy_result_takes_resolve_branch_witness :
  to_boolean (num 1) = true /\
  Promises.trace (Promises.run (3 + 0) (Promises.top_level (num 1) w0))
    = [Promises.CalledResolve Promises.sub (VStr "promise met succesfully");
       Promises.RanHandler Promises.ThenLog (VStr "promise met succesfully")].
Proof.
  split; [reflexivity |].
  apply (truthy_result_takes_resolve_branch (num 1) w0 0). reflexivity.
Defined.

(** ** The array methods, on every array *)

(** X14.  [find] and [findIndex] agree on every array and callback:
    either no element passes, and they answer [undefined] and -1, or
    they answer the first element that passes and its index. *)
Theorem find_findIndex_agree (cb : Arrays.callback) (arr : list value) :
  (Arrays.findIndex cb arr = -1 /\
   Arrays.find cb arr = VUndef /\
   forall i x, arr !! i = Some x ->
               to_boolean (cb x (Z.of_nat i) arr) = false) \/
  (exists i x,
     Arrays.findIndex cb arr = Z.of_nat i /\
     Arrays.find cb arr = x /\
     arr !! i = Some x /\
     to_boolean (cb x (Z.of_nat i) arr) = true /\
     forall j y, (j < i)%nat -> arr !! j = Some y ->
                 to_boolean (cb y (Z.of_nat j) arr) = false).
Proof.
  unfold Arrays.findIndex, Arrays.find.
  destruct (Arrays.find_from cb arr 0 arr) as [[k x] |] eqn:H.
  - right.
    destruct (find_from_Some cb arr arr 0 k x H)
      as (pre & post & Harr & -> & Hx & Hpre).
    exists (length pre), x. rewrite Z.add_0_l in *.
    repeat split; try assumption.
    + rewrite Harr. apply list_lookup_middle. reflexivity.
    + intros j y Hj Hy. rewrite Harr, lookup_app_l in Hy by exact Hj.
      specialize (Hpre j y Hy). by rewrite Z.add_0_l in Hpre.
  - left. repeat split.
    intros i x Hi.
    pose proof (find_from_None cb arr arr 0 H i x Hi) as Hn.
    by rewrite Z.add_0_l in Hn.
Qed.

Lemma flatten_app (d : nat) (a b : list value) :
  Arrays.flatten d (a ++ b) = Arrays.flatten d a ++ Arrays.flatten d b.
Proof. destruct d; simpl; [reflexivity | apply flat_map_app]. Qed.

Lemma flatten_S (d : nat) (xs : list value) :
  Arrays.flatten (S d) xs = Arrays.flatten d (Arrays.flatten 1 xs).
Proof.
  induction xs as [|x xs IH]; [by destruct d |].
  change (Arrays.flatten (S d) (x :: xs))
    with ((match x with VArr ys => Arrays.flatten d ys | _ => [x] end)
            ++ Arrays.flatten (S d) xs).
  change (Arrays.flatten 1 (x :: xs))
    with ((match x with VArr ys => ys | _ => [x] end) ++ Arrays.flatten 1 xs).
  rewrite flatten_app, IH. f_equal.
  destruct x; destruct d; reflexivity.
Qed.

(** X15.  Flattening composes: [flat(d + 1)] gives what [flat()]
    followed by [flat(d)] gives, for every array and every depth
    [d >= 0]; with a depth of 0 or less [flat] returns the elements
    unchanged. *)
Theorem flat_composes (d : nat) (xs : list value) :
  Arrays.flat (Some (Z.of_nat d + 1)) xs
    = Arrays.flat (Some (Z.of_nat d)) (Arrays.flat None xs) /\
  Arrays.flat (Some (- Z.of_nat d)) xs = xs.
Proof.
  unfold Arrays.flat. split.
  - replace (Z.to_nat (Z.of_nat d + 1)) with (S d) by lia.
    rewrite Nat2Z.id. apply flatten_S.
  - replace (Z.to_nat (- Z.of_nat d)) with O by lia. reflexivity.
Qed.

(** X16.  [splice] cuts one contiguous segment out of the array: for
    every start, count and inserted items, the removed elements are a
    segment of the old array, and the new array is the old one with
    that segment replaced by the items.  Out-of-range numbers are
    clamped, never an error: the segment starts at [start] counted from
    the end when negative and cut to the array, and holds
    [deleteCount] elements cut to what is left. *)
Theorem splice_replaces_segment
    (start deleteCount : Z) (items arr : list value) :
  exists pre post,
    arr = pre ++ (Arrays.splice start deleteCount items arr).1 ++ post /\
    (Arrays.splice start deleteCount items arr).2 = pre ++ items ++ post /\
    let len := Z.of_nat (length arr) in
    let from := if start <? 0 then Z.max (len + start) 0 else Z.min start len in
    Z.of_nat (length pre) = from /\
    Z.of_nat (length (Arrays.splice start deleteCount items arr).1)
      = Z.min (Z.max deleteCount 0) (len - from).
Proof.
  unfold Arrays.splice. simpl.
  set (len := Z.of_nat (length arr)).
  set (from := if start <? 0 then Z.max (len + start) 0 else Z.min start len).
  set (del := Z.min (Z.max deleteCount 0) (len - from)).
  assert (Hfrom : 0 <= from <= len).
  { subst from len. destruct (start <? 0) eqn:Hs; lia. }
  assert (Hdel : 0 <= del <= len - from) by (subst del; lia).
  exists (take (Z.to_nat from) arr), (drop (Z.to_nat (from + del)) arr).
  split; [| split; [reflexivity | split]].
  - rewrite Z2Nat.inj_add by lia. rewrite <- drop_drop.
    by rewrite (take_drop (Z.to_nat del)), take_drop.
  - rewrite length_take. fold len. lia.
  - rewrite length_take, length_drop. fold len. lia.
Qed.

Lemma every_from_spec (cb : Arrays.callback) (arr rest : list value) :
  forall k,
    Arrays.every_from cb arr k rest = true <->
    (forall i x, rest !! i = Some x ->
                 to_boolean (cb x (k + Z.of_nat i) arr) = true).
Proof.
  induction rest as [|y rest IH]; intros k; simpl.
  - split; [intros _ i x Hi; discriminate Hi | reflexivity].
  - destruct (to_boolean (cb y k arr)) eqn:Hy.
    + rewrite IH. split.
      * intros H [|i] x Hi; simpl in Hi.
        -- injection Hi as <-. by rewrite Z.add_0_r.
        -- replace (k + Z.of_nat (S i)) with (k + 1 + Z.of_nat i) by lia.
           by apply H.
      * intros H i x Hi.
        replace (k + 1 + Z.of_nat i) with (k + Z.of_nat (S i)) by lia.
        by apply H.
    + split; [discriminate |].
      intros H. specialize (H O y eq_refl).
      rewrite Z.add_0_r in H. congruence.
Qed.

(** X17.  [every] answers [true] exactly when the callback accepts each
    element at its index; in particular it is [true] on the empty
    array. *)
Theorem every_iff_all_pass (cb : Arrays.callback) (arr : list value) :
  (Arrays.every cb arr = true <->
   forall i x, arr !! i = Some x ->
               to_boolean (cb x (Z.of_nat i) arr) = true) /\
  Arrays.every cb [] = true.
Proof.
  split; [| reflexivity].
  unfold Arrays.every. rewrite every_from_spec.
  split; intros H i x Hi; specialize (H i x Hi); by rewrite Z.add_0_l in *.
Qed.

Lemma indexOf_from_cases (x : value) (l : list value) :
  forall k,
    (Arrays.indexOf_from x k l = -1 /\
     Forall (fun y => strict_eq y x = false) l) \/
    (exists i y,
       Arrays.indexOf_from x k l = k + Z.of_nat i /\
       l !! i = Some y /\ strict_eq y x = true /\
       forall j z, (j < i)%nat -> l !! j = Some z -> strict_eq z x = false).
Proof.
  induction l as [|y l IH]; intros k; simpl.
  - left. split; [reflexivity | constructor].
  - destruct (strict_eq y x) eqn:Hy.
    + right. exists O, y. rewrite Z.add_0_r. repeat split.
      * exact Hy.
      * intros j z Hj. lia.
    + destruct (IH (k + 1)) as [[Hn Hall] | (i & y' & Hi & Hl & Hy' & Hb)].
      * left. split; [exact Hn | by constructor].
      * right. exists (S i), y'. repeat split; try assumption.
        -- rewrite Hi. lia.
        -- intros [|j] z Hj Hz; simpl in Hz.
           ++ by injection Hz as <-.
           ++ apply (Hb j z); [lia | exact Hz].
Qed.

Lemma rev_is_reverse {A} (l : list A) : rev l = reverse l.
Proof. unfold reverse. apply rev_alt. Qed.

(** X18.  [indexOf] and [lastIndexOf] bracket the occurrences of a
    value: either no element equals it and both answer -1, or they
    answer the first and the last index whose element equals it, the
    first never after the last, and every occurrence lies between the
    two. *)
Theorem indexOf_lastIndexOf_bracket (x : value) (arr : list value) :
  (Arrays.indexOf x arr = -1 /\
   Arrays.lastIndexOf x arr = -1 /\
   forall m u, arr !! m = Some u -> strict_eq u x = false) \/
  (exists i j,
     Arrays.indexOf x arr = Z.of_nat i /\
     Arrays.lastIndexOf x arr = Z.of_nat j /\
     (i <= j)%nat /\
     (exists y, arr !! i = Some y /\ strict_eq y x = true) /\
     (exists z, arr !! j = Some z /\ strict_eq z x = true) /\
     forall m u, arr !! m = Some u -> strict_eq u x = true ->
                 (i <= m <= j)%nat).
Proof.
  unfold Arrays.indexOf, Arrays.lastIndexOf.
  destruct (indexOf_from_cases x arr 0)
    as [[Hn Hall] | (i & y & Hi & Hl & Hy & Hb)];
  destruct (indexOf_from_cases x (rev arr) 0)
    as [[Hrn Hrall] | (i' & z & Hi' & Hrl & Hz & Hrb)].
  - left. rewrite Hn, Hrn. repeat split.
    intros m u Hm. exact (Forall_lookup_1 _ _ _ _ Hall Hm).
  - exfalso. rewrite rev_is_reverse in Hrl.
    apply reverse_lookup_Some in Hrl as [Hrl _].
    pose proof (Forall_lookup_1 _ _ _ _ Hall Hrl) as Hf. simpl in Hf. congruence.
  - exfalso. rewrite rev_is_reverse, Forall_reverse in Hrall.
    pose proof (Forall_lookup_1 _ _ _ _ Hrall Hl) as Hf. simpl in Hf. congruence.
  - right. rewrite Z.add_0_l in Hi, Hi'. rewrite Hi, Hi'.
    rewrite rev_is_reverse in Hrl, Hrb.
    apply reverse_lookup_Some in Hrl as [Hrl Hlt].
    exists i, (length arr - S i')%nat.
    assert (Hij : (i <= length arr - S i')%nat).
    { destruct (decide (i <= length arr - S i')%nat) as [|Hgt]; [assumption |].
      assert (Hf := Hb (length arr - S i')%nat z ltac:(lia) Hrl). congruence. }
    split; [reflexivity |]. split.
    { destruct (Z.of_nat i') as [| p | p] eqn:Hp; lia. }
    split; [exact Hij |]. split; [by exists y |]. split; [by exists z |].
    intros m u Hm Hu. split.
    + destruct (decide (i <= m)%nat) as [|Hgt]; [assumption |].
      assert (Hf := Hb m u ltac:(lia) Hm). congruence.
    + destruct (decide (m <= length arr - S i')%nat) as [|Hgt]; [assumption |].
      assert (Hmlt : (m < length arr)%nat) by (by eapply lookup_lt_Some).
      assert (Hf := Hrb (length arr - S m)%nat u ltac:(lia)).
      rewrite reverse_lookup in Hf by lia.
      replace (length arr - S (length arr - S m))%nat with m in Hf by lia.
      specialize (Hf Hm). congruence.
Qed.

(** ** Numbers and the strings that spell them *)

Lemma digit_of_digit (d : Z) :
  0 <= d < 10 -> digit_of (ascii_of_nat (Z.to_nat (48 + d))) = Some d.
Proof.
  intros H.
  assert (Hd : d = 0 \/ d = 1 \/ d = 2 \/ d = 3 \/ d = 4 \/
               d = 5 \/ d = 6 \/ d = 7 \/ d = 8 \/ d = 9) by lia.
  repeat (destruct Hd as [-> | Hd]; [reflexivity |]). by subst d.
Qed.

(** Reading back the digits written for [n] appends [n] to what was
    read before. *)
Lemma digits_value_digits_of_pos (fuel : nat) :
  forall (n : Z) (s : string),
    0 <= n < 10 ^ Z.of_nat fuel ->
    exists p, forall a,
      digits_value a (digits_of_pos fuel n s) = digits_value (a * p + n) s.
Proof.
  induction fuel as [|fuel IH]; intros n s Hn.
  - exists 1. intros a. simpl in *. f_equal. lia.
  - cbn [digits_of_pos].
    assert (Hmod : 0 <= n mod 10 < 10) by (apply Z.mod_pos_bound; lia).
    destruct (n <? 10) eqn:Hlt.
    + exists 10. intros a. cbn [digits_value].
      rewrite (digit_of_digit _ Hmod). f_equal.
      rewrite Z.mod_small by lia. lia.
    + destruct (IH (n / 10)
                  (String (ascii_of_nat (Z.to_nat (48 + n mod 10))) s))
        as (p & Hp).
      { split; [apply Z.div_pos; lia |].
        apply Z.div_lt_upper_bound; [lia |].
        rewrite Nat2Z.inj_succ, Z.pow_succ_r in Hn by lia. lia. }
      exists (10 * p). intros a. rewrite Hp. cbn [digits_value].
      rewrite (digit_of_digit _ Hmod). f_equal.
      pose proof (Z.div_mod n 10 ltac:(lia)). lia.
Qed.

Lemma digits_of_pos_head (fuel : nat) :
  forall (n : Z) (c : ascii) (r : string),
    0 <= n -> is_Some (digit_of c) ->
    exists c' r',
      digits_of_pos fuel n (String c r) = String c' r' /\
      is_Some (digit_of c').
Proof.
  induction fuel as [|fuel IH]; intros n c r Hn Hc; cbn [digits_of_pos].
  - eauto.
  - assert (Hd : is_Some (digit_of (ascii_of_nat (Z.to_nat (48 + n mod 10))))).
    { rewrite digit_of_digit; [eauto | apply Z.mod_pos_bound; lia]. }
    destruct (n <? 10); [eauto |].
    apply IH; [apply Z.div_pos; lia | exact Hd].
Qed.

Lemma digits_nonempty (fuel : nat) (n : Z) :
  0 <= n ->
  exists c r,
    digits_of_pos (S fuel) n EmptyString = String c r /\
    is_Some (digit_of c).
Proof.
  intros Hn. cbn [digits_of_pos].
  assert (Hd : is_Some (digit_of (ascii_of_nat (Z.to_nat (48 + n mod 10))))).
  { rewrite digit_of_digit; [eauto | apply Z.mod_pos_bound; lia]. }
  destruct (n <? 10); [eauto |].
  apply digits_of_pos_head; [apply Z.div_pos; lia | exact Hd].
Qed.

Lemma string_to_number_digits (c : ascii) (r : string) :
  is_Some (digit_of c) ->
  string_to_number (String c r)
    = match digits_value 0 (String c r) with
      | Some z => Fin z
      | None => NaN
      end.
Proof.
  intros [d Hd].
  destruct c as [[] [] [] [] [] [] [] []]; vm_compute in Hd;
    try discriminate Hd; destruct r; reflexivity.
Qed.

Lemma fuel_enough (n : Z) :
  0 <= n -> n < 10 ^ Z.of_nat (S (Z.to_nat (Z.log2 n))).
Proof.
  intros Hn.
  replace (Z.of_nat (S (Z.to_nat (Z.log2 n)))) with (Z.succ (Z.log2 n))
    by (pose proof (Z.log2_nonneg n); lia).
  destruct (Z.eq_dec n 0) as [-> | Hne]; [reflexivity |].
  pose proof (Z.log2_spec n ltac:(lia)) as [_ Hlt].
  pose proof (Z.pow_le_mono_l 2 10 (Z.succ (Z.log2 n)) ltac:(lia)). lia.
Qed.

Lemma digits_round_trip (n : Z) :
  0 <= n ->
  exists c r,
    digits_of_pos (S (Z.to_nat (Z.log2 n))) n EmptyString = String c r /\
    is_Some (digit_of c) /\
    digits_value 0 (String c r) = Some n.
Proof.
  intros Hn.
  destruct (digits_nonempty (Z.to_nat (Z.log2 n)) n Hn) as (c & r & Heq & Hc).
  exists c, r. split; [exact Heq | split; [exact Hc |]].
  destruct (digits_value_digits_of_pos (S (Z.to_nat (Z.log2 n))) n EmptyString)
    as (p & Hp).
  { split; [exact Hn | by apply fuel_enough]. }
  rewrite <- Heq, Hp. reflexivity.
Qed.

(** X19.  Writing a safe integer as a string and reading the string
    back gives the integer again, negative numbers included; so a
    string that spells a safe integer compares with a number as that
    integer does, which is why ["13" > 10] holds. *)
Theorem number_string_round_trip (z n : Z) :
  safe_integer z = true ->
  safe_integer n = true ->
  string_to_number (number_to_string (Fin z)) = Fin z /\
  to_number (VStr (to_string (num z))) = Fin z /\
  js_gt (VStr (to_string (num z))) (num n) = (n <? z) /\
  js_gt (num z) (num n) = (n <? z).
Proof.
  intros _ _.
  assert (H : string_to_number (number_to_string (Fin z)) = Fin z).
  { unfold number_to_string. destruct (z <? 0) eqn:Hz.
    - destruct (digits_round_trip (- z) ltac:(lia)) as (c & r & -> & Hc & Hv).
      cbn [string_to_number]. rewrite Hv. f_equal. lia.
    - destruct (digits_round_trip z ltac:(lia)) as (c & r & -> & Hc & Hv).
      rewrite (string_to_number_digits c r Hc), Hv. reflexivity. }
  split; [exact H | split; [exact H | split; [| reflexivity]]].
  change (js_gt (VStr (to_string (num z))) (num n))
    with (match string_to_number (number_to_string (Fin z)) with
          | Fin y => n <? y
          | NaN => false
          end).
  by rewrite H.
Qed.

(** ["13" > 10] *)
Lemma number_string_round_trip_witness :
  safe_integer 13 = true /\ safe_integer 10 = true /\
  js_gt (VStr (to_string (num 13))) (num 10) = (10 <? 13).
Proof.
  split; [reflexivity | split; [reflexivity |]].
  destruct (number_string_round_trip 13 10 eq_refl eq_refl) as (_ & _ & H & _).
  exact H.
Defined.

(** ** Loading two scripts *)

(** X20.  The two scripts that write to the realm do not disturb each
    other: loaded in either order, script.js and the [this]-keyword
    snippet both end normally and leave the same globals and the same
    [Function.prototype]. *)
Theorem load_order_irrelevant
    (user_body : nat -> value -> list value -> world -> result * world)
    (s : state) :
  let a := script_js user_body in
  let b := this_keyword_js user_body in
  (b (a s).2).1 = Normal VUndef /\
  (a (b s).2).1 = Normal VUndef /\
  globals (wld (b (a s).2).2) = globals (wld (a (b s).2).2) /\
  fun_proto (wld (b (a s).2).2) = fun_proto (wld (a (b s).2).2).
Proof.
  intros a b. subst a b.
  destruct (script_js_effect user_body s) as [_ Ha].
  destruct (this_keyword_js_effect user_body s) as [_ Hb].
  destruct (script_js_effect user_body (this_keyword_js user_body s).2)
    as [Hab Hab'].
  destruct (this_keyword_js_effect user_body (script_js user_body s).2)
    as [Hba Hba'].
  split; [exact Hba | split; [exact Hab |]].
  rewrite Hab', Hba', Ha, Hb. simpl. split; [| reflexivity].
  rewrite (insert_insert_ne _ "params" "name") by done.
  rewrite (insert_insert_ne _ "params" "Person") by done.
  reflexivity.
Qed.
